(** * Two-party WebRTC signalling: the relay server and the client state machine

    A shallow embedding of [server.js] (the socket.io signalling server) and of
    the browser client of [index.html] (start-call / offer / answer /
    ice-candidate handlers), with the properties of the matcher, the relay and
    the candidate queue proved over it. *)

From stdpp Require Import gmap strings list pretty.

Set Warnings "-clear-no-such-hyp".

Open Scope string_scope.
Open Scope list_scope.
Open Scope nat_scope.

(** ** JavaScript [Set]: a set that remembers insertion order

    [Array.from(set)] lists the members in the order of their first [add];
    adding a member again keeps its place. *)
Module JSSet.

Abbreviation t := (list string).

Definition empty : t := [].

Definition has (x : string) (s : t) : bool := bool_decide (x ∈ s).

Definition add (x : string) (s : t) : t :=
  if has x s then s else s ++ [x].

Definition delete (x : string) (s : t) : t :=
  filter (λ y, y ≠ x) s.

Definition size (s : t) : nat := length s.

Definition to_array (s : t) : list string := s.

End JSSet.

(** ** server.js *)
Module Server.

(** A socket.io socket, as far as the server looks at it. *)
Record Socket := { socket_id : string }.

(** [const clients = new Map(); const readyClients = new Set();] *)
Record State := {
  clients : gmap string Socket;
  readyClients : JSSet.t
}.

Definition initial : State := {| clients := ∅; readyClients := JSSet.empty |}.

(** What goes over the wire. The offer, answer and candidate bodies are
    opaque to the server. *)
Inductive payload :=
| Count (n : nat)
| StartCall (initiator : option string)   (* { initiator: clientIds[0] } *)
| Relayed (field : string) (body : string) (from : string).

Inductive effect :=
| ConsoleLog (line : string)
| IoEmit (event : string) (p : payload)                     (* io.emit *)
| BroadcastEmit (sender : string) (event : string) (p : payload).
                                                  (* socket.broadcast.emit *)

(** [io.on('connection', (socket) => { ... })]: the statements that run at
    connection time; the handlers it registers on the socket follow. *)
Definition on_connection (socket : Socket) (s : State) : State * list effect :=
  let s1 := {| clients := <[socket_id socket := socket]> (clients s);
               readyClients := readyClients s |} in
  (s1, [ ConsoleLog ("Client connected: " +:+ socket_id socket);
         IoEmit "user-count" (Count (size (clients s1))) ]).

(** [socket.on('ready', () => { ... })] *)
Definition on_ready (id : string) (s : State) : State * list effect :=
  let log1 := [ ConsoleLog ("Client ready: " +:+ id);
                ConsoleLog ("Total ready clients: "
                            +:+ pretty (JSSet.size (readyClients s) + 1)) ] in
  let s1 := {| clients := clients s;
               readyClients := JSSet.add id (readyClients s) |} in
  let count := [ IoEmit "ready-count" (Count (JSSet.size (readyClients s1))) ] in
  if decide (JSSet.size (readyClients s1) = 2) then
    let clientIds := JSSet.to_array (readyClients s1) in
    let initiatorId := clientIds !! 0 in
    (s1, log1 ++ count ++
         [ ConsoleLog "✅ Two clients ready - initiating connection";
           ConsoleLog ("   Initiator: " +:+ default "undefined" initiatorId);
           ConsoleLog ("   Answerer: " +:+ default "undefined" (clientIds !! 1));
           IoEmit "start-call" (StartCall initiatorId) ])
  else if decide (2 < JSSet.size (readyClients s1)) then
    (s1, log1 ++ count ++
         [ ConsoleLog "⚠️  More than 2 clients ready - this app supports only 2 peers" ])
  else (s1, log1 ++ count).

(** The three relay handlers: [socket.on('offer' | 'answer' | 'ice-candidate')].
    [data] is the received object; the handler reads one field of it. *)
Record OfferData := { offer : string }.
Record AnswerData := { answer : string }.
Record CandidateData := { candidate : string }.

Definition on_offer (id : string) (data : OfferData) (s : State)
  : State * list effect :=
  (s, [ ConsoleLog ("Offer received from " +:+ id);
        BroadcastEmit id "offer" (Relayed "offer" (offer data) id) ]).

Definition on_answer (id : string) (data : AnswerData) (s : State)
  : State * list effect :=
  (s, [ ConsoleLog ("Answer received from " +:+ id);
        BroadcastEmit id "answer" (Relayed "answer" (answer data) id) ]).

Definition on_ice_candidate (id : string) (data : CandidateData) (s : State)
  : State * list effect :=
  (s, [ ConsoleLog ("ICE candidate received from " +:+ id);
        BroadcastEmit id "ice-candidate"
          (Relayed "candidate" (candidate data) id) ]).

(** [socket.on('disconnect', () => { ... })] *)
Definition on_disconnect (id : string) (s : State) : State * list effect :=
  let s1 := {| clients := delete id (clients s);
               readyClients := JSSet.delete id (readyClients s) |} in
  (s1, [ ConsoleLog ("Client disconnected: " +:+ id);
         IoEmit "user-count" (Count (size (clients s1))) ]).

(** Events reaching the server process, one at a time (Node runs each
    handler to completion before it takes the next event). *)
Inductive event :=
| Connection (id : string)
| Ready (id : string)
| Offer (id : string) (data : OfferData)
| Answer (id : string) (data : AnswerData)
| IceCandidate (id : string) (data : CandidateData)
| Disconnect (id : string).

Definition handle (e : event) (s : State) : State * list effect :=
  match e with
  | Connection id => on_connection {| socket_id := id |} s
  | Ready id => on_ready id s
  | Offer id data => on_offer id data s
  | Answer id data => on_answer id data s
  | IceCandidate id data => on_ice_candidate id data s
  | Disconnect id => on_disconnect id s
  end.

(** A run: the final state and, per event, the effects of its handler. *)
Fixpoint run (tr : list event) (s : State) : State * list (list effect) :=
  match tr with
  | [] => (s, [])
  | e :: tr' =>
      let '(s1, out) := handle e s in
      let '(s2, outs) := run tr' s1 in
      (s2, out :: outs)
  end.

(** socket.io only delivers a socket's events between its connection and its
    disconnect, and gives every connection a fresh id. *)
Definition enabled (e : event) (s : State) : bool :=
  match e with
  | Connection id => bool_decide (clients s !! id = None)
  | Ready id | Offer id _ | Answer id _ | IceCandidate id _ | Disconnect id =>
      bool_decide (is_Some (clients s !! id))
  end.

Inductive reachable : State → Prop :=
| reachable_initial : reachable initial
| reachable_step e s :
    reachable s → enabled e s = true → reachable (handle e s).1.

(** Who gets an emitted message. The sockets socket.io holds are the keys of
    [clients]: both gain the id at connection and lose it at disconnect. *)
Definition recipients (s : State) (f : effect) : gset string :=
  match f with
  | ConsoleLog _ => ∅
  | IoEmit _ _ => dom (clients s)
  | BroadcastEmit sender _ _ => dom (clients s) ∖ {[ sender ]}
  end.

Definition message (f : effect) : option (string * payload) :=
  match f with
  | ConsoleLog _ => None
  | IoEmit ev p | BroadcastEmit _ ev p => Some (ev, p)
  end.

(** The network output of a handler, console lines dropped. *)
Definition emissions (out : list effect) : list effect :=
  filter (λ f, is_Some (message f)) out.

(** The messages participant [q] receives from the effects [out], emitted
    while the server is in state [s]. *)
Definition received_by (q : string) (s : State) (out : list effect)
  : list (string * payload) :=
  omap message (filter (λ f, q ∈ recipients s f) out).

Definition is_start_call (f : effect) : bool :=
  match f with
  | IoEmit ev (StartCall _) | BroadcastEmit _ ev (StartCall _) =>
      bool_decide (ev = "start-call")
  | _ => false
  end.

Definition start_calls (out : list effect) : list effect :=
  filter (λ f, is_start_call f = true) out.

Definition is_ready_event (e : event) : bool :=
  match e with Ready _ => true | _ => false end.

Definition is_disconnect (e : event) : bool :=
  match e with Disconnect _ => true | _ => false end.

Definition is_disconnect_of (a : string) (e : event) : bool :=
  match e with Disconnect id => bool_decide (id = a) | _ => false end.

(** Traces whose ready signals all come from members of [r] (none at all
    when [r] is empty), and traces without the disconnect of [a]. *)
Definition ready_only_from (r : list string) (tr : list event) : bool :=
  forallb (λ e, match e with
                | Ready id => bool_decide (id ∈ r)
                | _ => true
                end) tr.

Definition no_ready (tr : list event) : bool := ready_only_from [] tr.

Definition stays (a : string) (tr : list event) : bool :=
  forallb (λ e, negb (is_disconnect_of a e)) tr.

(** Runs from [s] after each event of which three or more are ready. *)
Fixpoint stays_crowded (tr : list event) (s : State) : bool :=
  match tr with
  | [] => true
  | e :: tr' =>
      bool_decide (3 ≤ JSSet.size (readyClients (handle e s).1))
      && stays_crowded tr' (handle e s).1
  end.

End Server.

(** ** Results of calls that may throw *)
Inductive outcome (A : Type) :=
| Return (a : A)
| Throw (message : string).
Arguments Return {A} a.
Arguments Throw {A} message.

(** ** Lists: the longest front part whose members all pass a test, and
    what comes after it *)
Fixpoint take_while {A} (p : A → bool) (l : list A) : list A :=
  match l with
  | [] => []
  | x :: l' => if p x then x :: take_while p l' else []
  end.

Fixpoint drop_while {A} (p : A → bool) (l : list A) : list A :=
  match l with
  | [] => []
  | x :: l' => if p x then drop_while p l' else x :: l'
  end.

(** ** The browser's RTCPeerConnection, as far as the client drives it

    The offer/answer signalling states and the rule that a remote candidate
    needs a remote description; descriptions are of type offer or answer,
    the two kinds this application sends. *)
Module RTC.

Inductive SignalingState :=
| stable
| have_local_offer
| have_remote_offer
| have_local_pranswer
| have_remote_pranswer
| closed.

Definition SignalingState_name (st : SignalingState) : string :=
  match st with
  | stable => "stable"
  | have_local_offer => "have-local-offer"
  | have_remote_offer => "have-remote-offer"
  | have_local_pranswer => "have-local-pranswer"
  | have_remote_pranswer => "have-remote-pranswer"
  | closed => "closed"
  end.

Inductive SdpType := sdp_offer | sdp_answer.

(** RTCSessionDescription: [{ type, sdp }] *)
Record Description := { sd_type : SdpType; sdp : string }.

(** RTCIceCandidate as sent over the relay; [cand_type] is empty when the
    object carries no [type]. [acceptable] is the browser's verdict on the
    candidate: it refuses one it cannot parse or cannot match to a media
    section of the session ([new RTCIceCandidate] or [addIceCandidate]
    throws). *)
Record Candidate := { cand : string; cand_type : string; acceptable : bool }.

Record PeerConnection := {
  signalingState : SignalingState;
  localDescription : option Description;
  remoteDescription : option Description;
  senders : list string;              (* kinds of the tracks given to addTrack *)
  dataChannels : list string;         (* labels given to createDataChannel *)
  remoteCandidates : list Candidate   (* candidates taken by addIceCandidate,
                                         oldest first *)
}.

(** [new RTCPeerConnection(configuration)] *)
Definition new : PeerConnection :=
  {| signalingState := stable; localDescription := None;
     remoteDescription := None; senders := []; dataChannels := [];
     remoteCandidates := [] |}.

Definition with_senders (l : list string) (pc : PeerConnection)
  : PeerConnection :=
  {| signalingState := signalingState pc;
     localDescription := localDescription pc;
     remoteDescription := remoteDescription pc; senders := l;
     dataChannels := dataChannels pc;
     remoteCandidates := remoteCandidates pc |}.

Definition with_dataChannels (l : list string) (pc : PeerConnection)
  : PeerConnection :=
  {| signalingState := signalingState pc;
     localDescription := localDescription pc;
     remoteDescription := remoteDescription pc; senders := senders pc;
     dataChannels := l;
     remoteCandidates := remoteCandidates pc |}.

Definition with_remoteCandidates (l : list Candidate) (pc : PeerConnection)
  : PeerConnection :=
  {| signalingState := signalingState pc;
     localDescription := localDescription pc;
     remoteDescription := remoteDescription pc; senders := senders pc;
     dataChannels := dataChannels pc;
     remoteCandidates := l |}.

Definition addTrack (kind : string) (pc : PeerConnection)
  : outcome (unit * PeerConnection) :=
  match signalingState pc with
  | closed => Throw "InvalidStateError"
  | _ => Return (tt, with_senders (senders pc ++ [kind]) pc)
  end.

Definition createDataChannel (label : string) (pc : PeerConnection)
  : outcome (unit * PeerConnection) :=
  match signalingState pc with
  | closed => Throw "InvalidStateError"
  | _ => Return (tt, with_dataChannels (dataChannels pc ++ [label]) pc)
  end.

(** The session text the browser generates: one media line per sender. *)
Definition session_text (pc : PeerConnection) : string :=
  String.concat "" (map (λ kind, "m=" +:+ kind +:+ ";") (senders pc)).

Definition createOffer (pc : PeerConnection)
  : outcome (Description * PeerConnection) :=
  match signalingState pc with
  | closed => Throw "InvalidStateError"
  | _ => Return ({| sd_type := sdp_offer; sdp := session_text pc |}, pc)
  end.

Definition createAnswer (pc : PeerConnection)
  : outcome (Description * PeerConnection) :=
  match signalingState pc with
  | have_remote_offer | have_local_pranswer =>
      Return ({| sd_type := sdp_answer; sdp := session_text pc |}, pc)
  | _ => Throw "InvalidStateError"
  end.

Definition with_local (st : SignalingState) (d : Description)
    (pc : PeerConnection) : PeerConnection :=
  {| signalingState := st; localDescription := Some d;
     remoteDescription := remoteDescription pc; senders := senders pc;
     dataChannels := dataChannels pc;
     remoteCandidates := remoteCandidates pc |}.

Definition with_remote (st : SignalingState) (d : Description)
    (pc : PeerConnection) : PeerConnection :=
  {| signalingState := st; localDescription := localDescription pc;
     remoteDescription := Some d; senders := senders pc;
     dataChannels := dataChannels pc;
     remoteCandidates := remoteCandidates pc |}.

Definition setLocalDescription (d : Description) (pc : PeerConnection)
  : outcome (unit * PeerConnection) :=
  match sd_type d, signalingState pc with
  | sdp_offer, (stable | have_local_offer) =>
      Return (tt, with_local have_local_offer d pc)
  | sdp_answer, (have_remote_offer | have_local_pranswer) =>
      Return (tt, with_local stable d pc)
  | _, _ => Throw "InvalidStateError"
  end.

Definition setRemoteDescription (d : Description) (pc : PeerConnection)
  : outcome (unit * PeerConnection) :=
  match sd_type d, signalingState pc with
  | sdp_offer, (stable | have_remote_offer) =>
      Return (tt, with_remote have_remote_offer d pc)
  | sdp_answer, (have_local_offer | have_remote_pranswer) =>
      Return (tt, with_remote stable d pc)
  | _, _ => Throw "InvalidStateError"
  end.

(** "addIceCandidate() requires remote description to be set first"; with
    one in place the browser takes the candidate or refuses it. *)
Definition addIceCandidate (c : Candidate) (pc : PeerConnection)
  : outcome (unit * PeerConnection) :=
  match remoteDescription pc with
  | None => Throw "InvalidStateError"
  | Some _ =>
      if acceptable c
      then Return (tt, with_remoteCandidates (remoteCandidates pc ++ [c]) pc)
      else Throw "OperationError"
  end.

End RTC.

#[global] Instance SignalingState_eq_dec : EqDecision RTC.SignalingState.
Proof. solve_decision. Defined.

(** ** The client of index.html *)
Module Client.

Import RTC.

(** What the page sends with [socket.emit]. *)
Inductive outgoing :=
| EmitReady
| EmitOffer (offer : Description)
| EmitAnswer (answer : Description).

(** The page's variables, its log panel and what it has sent so far. *)
Record State := {
  socket_id : string;
  localStream : option (list string);       (* the stream's track kinds *)
  peerConnection : option PeerConnection;
  isInitiator : bool;
  iceCandidateQueue : list Candidate;
  startBtn_disabled : bool;
  mediaRequests : nat;          (* getUserMedia calls that have not settled *)
  messages : list string;                   (* logMessage *)
  sent : list outgoing                      (* socket.emit *)
}.

Definition initial (id : string) : State :=
  {| socket_id := id; localStream := None; peerConnection := None;
     isInitiator := false; iceCandidateQueue := [];
     startBtn_disabled := false; mediaRequests := 0; messages := [];
     sent := [] |}.

Definition set_localStream (v : option (list string)) (s : State) : State :=
  {| socket_id := socket_id s; localStream := v;
     peerConnection := peerConnection s; isInitiator := isInitiator s;
     iceCandidateQueue := iceCandidateQueue s;
     startBtn_disabled := startBtn_disabled s;
     mediaRequests := mediaRequests s;
     messages := messages s; sent := sent s |}.

Definition set_peerConnection (v : option PeerConnection) (s : State) : State :=
  {| socket_id := socket_id s; localStream := localStream s;
     peerConnection := v; isInitiator := isInitiator s;
     iceCandidateQueue := iceCandidateQueue s;
     startBtn_disabled := startBtn_disabled s;
     mediaRequests := mediaRequests s;
     messages := messages s; sent := sent s |}.

Definition set_isInitiator (v : bool) (s : State) : State :=
  {| socket_id := socket_id s; localStream := localStream s;
     peerConnection := peerConnection s; isInitiator := v;
     iceCandidateQueue := iceCandidateQueue s;
     startBtn_disabled := startBtn_disabled s;
     mediaRequests := mediaRequests s;
     messages := messages s; sent := sent s |}.

Definition set_iceCandidateQueue (v : list Candidate) (s : State) : State :=
  {| socket_id := socket_id s; localStream := localStream s;
     peerConnection := peerConnection s; isInitiator := isInitiator s;
     iceCandidateQueue := v;
     startBtn_disabled := startBtn_disabled s;
     mediaRequests := mediaRequests s;
     messages := messages s; sent := sent s |}.

Definition set_startBtn_disabled (v : bool) (s : State) : State :=
  {| socket_id := socket_id s; localStream := localStream s;
     peerConnection := peerConnection s; isInitiator := isInitiator s;
     iceCandidateQueue := iceCandidateQueue s;
     startBtn_disabled := v;
     mediaRequests := mediaRequests s;
     messages := messages s; sent := sent s |}.

Definition set_mediaRequests (v : nat) (s : State) : State :=
  {| socket_id := socket_id s; localStream := localStream s;
     peerConnection := peerConnection s; isInitiator := isInitiator s;
     iceCandidateQueue := iceCandidateQueue s;
     startBtn_disabled := startBtn_disabled s;
     mediaRequests := v;
     messages := messages s; sent := sent s |}.

Definition set_messages (v : list string) (s : State) : State :=
  {| socket_id := socket_id s; localStream := localStream s;
     peerConnection := peerConnection s; isInitiator := isInitiator s;
     iceCandidateQueue := iceCandidateQueue s;
     startBtn_disabled := startBtn_disabled s;
     mediaRequests := mediaRequests s;
     messages := v; sent := sent s |}.

Definition set_sent (v : list outgoing) (s : State) : State :=
  {| socket_id := socket_id s; localStream := localStream s;
     peerConnection := peerConnection s; isInitiator := isInitiator s;
     iceCandidateQueue := iceCandidateQueue s;
     startBtn_disabled := startBtn_disabled s;
     mediaRequests := mediaRequests s;
     messages := messages s; sent := v |}.

(** *** Handlers as state transformers that may throw

    Every [await] on the peer connection is taken to its completion before
    the next event is looked at. The start button's wait for the camera is
    taken either way: settled at once, or left open while other events
    come. *)
Definition M (A : Type) : Type := State → outcome A * State.

#[global] Instance M_ret : MRet M := λ A a s, (Return a, s).

#[global] Instance M_bind : MBind M := λ A B k m s,
  match m s with
  | (Return a, s1) => k a s1
  | (Throw e, s1) => (Throw e, s1)
  end.

Definition throw {A} (e : string) : M A := λ s, (Throw e, s).

(** [try { body } catch (err) { handler(err.message) }] *)
Definition try_catch (body : M unit) (handler : string → M unit) : M unit :=
  λ s, match body s with
       | (Return a, s1) => (Return a, s1)
       | (Throw e, s1) => handler e s1
       end.

Definition gets {A} (f : State → A) : M A := λ s, (Return (f s), s).

Definition modify (f : State → State) : M unit := λ s, (Return tt, f s).

Fixpoint forEach {A} (l : list A) (f : A → M unit) : M unit :=
  match l with
  | [] => mret tt
  | x :: l' => f x ;; forEach l' f
  end.

Definition logMessage (line : string) : M unit :=
  modify (λ s, set_messages (messages s ++ [line]) s).

Definition socket_emit (m : outgoing) : M unit :=
  modify (λ s, set_sent (sent s ++ [m]) s).

(** A method call on the object held in [peerConnection]. *)
Definition call {A} (method : PeerConnection → outcome (A * PeerConnection))
  : M A :=
  λ s, match peerConnection s with
       | None => (Throw "TypeError", s)
       | Some pc =>
           match method pc with
           | Return (a, pc') => (Return a, set_peerConnection (Some pc') s)
           | Throw e => (Throw e, s)
           end
       end.

(** [localStream.getTracks()] *)
Definition getTracks : M (list string) :=
  stream ← gets localStream;
  match stream with
  | None => throw "TypeError"
  | Some tracks => mret tracks
  end.

(** [while (iceCandidateQueue.length > 0) { const candidate =
    iceCandidateQueue.shift(); await peerConnection.addIceCandidate(...) }].
    Each round removes one entry, so [fuel] rounds are enough for a queue of
    length [fuel]. *)
Fixpoint processQueue (fuel : nat) : M unit :=
  match fuel with
  | 0 => mret tt
  | S fuel' =>
      queue ← gets iceCandidateQueue;
      match queue with
      | [] => mret tt
      | candidate :: rest =>
          modify (set_iceCandidateQueue rest) ;;
          call (addIceCandidate candidate) ;;
          processQueue fuel'
      end
  end.

Definition drainQueue : M unit :=
  queue ← gets iceCandidateQueue;
  processQueue (length queue).

(** [function createPeerConnection()]. The callbacks it installs run at
    later media and transport events, not here: [onicecandidate] sends the
    local candidates with [socket.emit('ice-candidate', ...)] (the messages
    the other page receives as [IceCandidate] events), [ontrack] and
    [onconnectionstatechange] attach the remote stream and update the status
    line (module [Media]), and the data channel's write to the log. [sent]
    records the ready, offer and answer messages only. *)
Definition createPeerConnection : M unit :=
  modify (set_peerConnection (Some RTC.new)) ;;
  tracks ← getTracks;
  forEach tracks (λ kind,
    call (addTrack kind) ;;
    logMessage ("📤 Added local " +:+ kind +:+ " track to peer connection")) ;;
  initiator ← gets isInitiator;
  if (initiator : bool) then call (createDataChannel "chat") else mret tt.

(** [async function createAndSendOffer()] *)
Definition createAndSendOffer : M unit :=
  try_catch
    (offer ← call createOffer;
     call (setLocalDescription offer) ;;
     socket_emit (EmitOffer offer) ;;
     logMessage "📤 Sent offer to peer")
    (λ err, logMessage ("❌ Error creating offer: " +:+ err)).

(** [async function handleOffer(offer)] *)
Definition handleOffer (offer : Description) : M unit :=
  pc ← gets peerConnection;
  match pc with
  | None =>
      modify (set_peerConnection (Some RTC.new)) ;;
      tracks ← getTracks;
      forEach tracks (λ kind,
        call (addTrack kind) ;;
        logMessage ("📤 Added local " +:+ kind +:+ " track"))
  | Some _ => mret tt
  end ;;
  try_catch
    (call (setRemoteDescription offer) ;;
     drainQueue ;;
     answer ← call createAnswer;
     call (setLocalDescription answer) ;;
     socket_emit (EmitAnswer answer) ;;
     logMessage "📤 Sent answer to peer")
    (λ err, logMessage ("❌ Error handling offer: " +:+ err)).

(** [async function handleAnswer(answer)] *)
Definition handleAnswer (answer : Description) : M unit :=
  try_catch
    (pc ← gets peerConnection;
     match pc with
     | None => logMessage "⚠️ No peer connection exists"
     | Some pc =>
         if decide (signalingState pc ≠ have_local_offer) then
           logMessage ("⚠️ Ignoring answer - wrong state: "
                       +:+ SignalingState_name (signalingState pc))
         else
           call (setRemoteDescription answer) ;;
           drainQueue ;;
           logMessage "✅ Connection established"
     end)
    (λ err, logMessage ("❌ Error handling answer: " +:+ err)).

(** [async function handleIceCandidate(candidate)] *)
Definition handleIceCandidate (candidate : Candidate) : M unit :=
  try_catch
    (pc ← gets peerConnection;
     match pc with
     | None =>
         modify (λ s, set_iceCandidateQueue (iceCandidateQueue s ++ [candidate]) s) ;;
         logMessage "📥 Queued ICE candidate (no peer connection yet)"
     | Some pc =>
         match remoteDescription pc with
         | Some _ =>
             call (addIceCandidate candidate) ;;
             logMessage ("📥 Added ICE candidate: "
                         +:+ (if decide (cand_type candidate = "") then "unknown"
                              else cand_type candidate))
         | None =>
             modify (λ s, set_iceCandidateQueue (iceCandidateQueue s ++ [candidate]) s) ;;
             logMessage "📥 Queued ICE candidate (waiting for remote description)"
         end
     end)
    (λ err, logMessage ("❌ Error adding ICE candidate: " +:+ err)).

(** *** The socket and button handlers *)

Record StartCallData := { initiator : string }.
Record OfferData := { offer : Description }.
Record AnswerData := { answer : Description }.
Record CandidateData := { candidate : Candidate }.

(** [socket.on('start-call', async (data) => { ... })]; [data] may be
    missing. *)
Definition on_start_call (data : option StartCallData) : M unit :=
  pc ← gets peerConnection;
  stream ← gets localStream;
  match pc, stream with
  | None, Some _ =>
      logMessage "👥 Both peers ready! Establishing connection..." ;;
      id ← gets socket_id;
      match data with
      | Some d =>
          if decide (initiator d = id) then
            modify (set_isInitiator true) ;;
            createPeerConnection ;;
            createAndSendOffer
          else logMessage "⏳ Waiting for offer from peer..."
      | None => logMessage "⏳ Waiting for offer from peer..."
      end
  | _, _ => mret tt
  end.

(** [socket.on('offer', async (data) => { ... })] *)
Definition on_offer (data : OfferData) : M unit :=
  logMessage "📨 Received offer from peer" ;;
  pc ← gets peerConnection;
  initiator ← gets isInitiator;
  match pc, initiator with
  | Some _, true => logMessage "⚠️ Ignoring offer - already initiated connection"
  | _, _ =>
      modify (set_isInitiator false) ;;
      handleOffer (offer data)
  end.

(** [socket.on('answer', async (data) => { ... })] *)
Definition on_answer (data : AnswerData) : M unit :=
  logMessage "📨 Received answer from peer" ;;
  handleAnswer (answer data).

(** [socket.on('ice-candidate', async (data) => { ... })] *)
Definition on_ice_candidate (data : CandidateData) : M unit :=
  handleIceCandidate (candidate data).

(** [if (!navigator.mediaDevices || !navigator.mediaDevices.getUserMedia)
    throw new Error(...)]; [supported] tells whether the browser has it. *)
Definition check_getUserMedia (supported : bool) : M unit :=
  if supported then mret tt else throw "getUserMedia is not supported".

(** [startBtn.onclick] when nothing else reaches the page during its
    [await]; [media] is what [getUserMedia] comes back with. The button is
    disabled after the [await] only. The [catch] block is empty in the
    source. *)
Definition on_start_click (supported : bool) (media : outcome (list string))
  : M unit :=
  try_catch
    (check_getUserMedia supported ;;
     logMessage "🎥 Requesting camera and microphone access..." ;;
     match media with
     | Throw e => throw e
     | Return stream =>
         modify (set_localStream (Some stream)) ;;
         logMessage "📹 Camera and microphone started" ;;
         modify (set_startBtn_disabled true) ;;
         socket_emit EmitReady ;;
         logMessage "⏳ Waiting for peer to join..."
     end)
    (λ err, mret tt).

(** The same handler when other events reach the page during the [await]:
    the part that runs at the click and leaves a [getUserMedia] request
    open, and the part that runs when a request settles. Between the two
    the button is still enabled, so a further click starts the handler
    again. *)
Definition on_start_click_begin (supported : bool) : M unit :=
  try_catch
    (check_getUserMedia supported ;;
     logMessage "🎥 Requesting camera and microphone access..." ;;
     modify (λ s, set_mediaRequests (S (mediaRequests s)) s))
    (λ err, mret tt).

Definition on_start_click_resume (media : outcome (list string)) : M unit :=
  requests ← gets mediaRequests;
  match requests with
  | 0 => mret tt
  | S others =>
      modify (set_mediaRequests others) ;;
      try_catch
        (match media with
         | Throw e => throw e
         | Return stream =>
             modify (set_localStream (Some stream)) ;;
             logMessage "📹 Camera and microphone started" ;;
             modify (set_startBtn_disabled true) ;;
             socket_emit EmitReady ;;
             logMessage "⏳ Waiting for peer to join..."
         end)
        (λ err, mret tt)
  end.

(** The events that reach the page. [StartClick media] is a click, in a
    browser that has [getUserMedia], whose request settles with [media]
    before the next event; [StartClickPending supported] is a click whose
    handler runs up to the [await] (or throws at the check), and
    [MediaSettled media] the moment a pending request settles. *)
Inductive event :=
| StartClick (media : outcome (list string))
| StartCall (data : option StartCallData)
| Offer (data : OfferData)
| Answer (data : AnswerData)
| IceCandidate (data : CandidateData)
| StartClickPending (supported : bool)
| MediaSettled (media : outcome (list string)).

(** A disabled button takes no clicks. *)
Definition dispatch (e : event) : M unit :=
  match e with
  | StartClick media =>
      disabled ← gets startBtn_disabled;
      if (disabled : bool) then mret tt else on_start_click true media
  | StartCall data => on_start_call data
  | Offer data => on_offer data
  | Answer data => on_answer data
  | IceCandidate data => on_ice_candidate data
  | StartClickPending supported =>
      disabled ← gets startBtn_disabled;
      if (disabled : bool) then mret tt else on_start_click_begin supported
  | MediaSettled media => on_start_click_resume media
  end.

(** The page after the handler of [e] has run; an exception that leaves
    the handler is dropped by the event loop, what it changed stays. *)
Definition step (s : State) (e : event) : State := (dispatch e s).2.

Definition run (tr : list event) (s : State) : State := foldl step s tr.

Inductive reachable (id : string) : State → Prop :=
| reachable_initial : reachable id (initial id)
| reachable_step s e : reachable id s → reachable id (step s e).

(** The candidates the connection has taken, and whether a remote
    description is in place. *)
Definition applied (s : State) : list Candidate :=
  match peerConnection s with
  | None => []
  | Some pc => remoteCandidates pc
  end.

Definition remote_description_set (s : State) : bool :=
  match peerConnection s with
  | Some pc => bool_decide (is_Some (remoteDescription pc))
  | None => false
  end.

Definition negotiation_state (s : State) : option SignalingState :=
  signalingState <$> peerConnection s.

(** The candidates delivered by the events of a trace, in order. *)
Definition candidates_of (tr : list event) : list Candidate :=
  omap (λ e, match e with IceCandidate d => Some (candidate d) | _ => None end) tr.

Definition is_answer (m : outgoing) : bool :=
  match m with EmitAnswer _ => true | _ => false end.

Definition answers_sent (s : State) : list outgoing :=
  filter (λ m, is_answer m = true) (sent s).

(** The candidates the page holds in either place. *)
Definition pool (s : State) : list Candidate :=
  applied s ++ iceCandidateQueue s.

(** What the queue loop comes to, without the loop: on a connection with
    a remote description it hands over the queued candidates up to the first
    one the browser refuses; that one has left the queue when the exception
    ends the loop, the ones behind it stay. *)
Definition unqueued (error : string) (s : State) : outcome unit * State :=
  match iceCandidateQueue s with
  | [] => (Return tt, s)
  | c :: rest => (Throw error, set_iceCandidateQueue rest s)
  end.

Definition drained (s : State) : outcome unit * State :=
  match peerConnection s with
  | None => unqueued "TypeError" s
  | Some pc =>
      match remoteDescription pc with
      | None => unqueued "InvalidStateError" s
      | Some _ =>
          match drop_while acceptable (iceCandidateQueue s) with
          | [] =>
              (Return tt,
               set_peerConnection
                 (Some (with_remoteCandidates
                          (remoteCandidates pc ++ iceCandidateQueue s) pc))
                 (set_iceCandidateQueue [] s))
          | bad :: later =>
              (Throw "OperationError",
               set_peerConnection
                 (Some (with_remoteCandidates
                          (remoteCandidates pc
                           ++ take_while acceptable (iceCandidateQueue s)) pc))
                 (set_iceCandidateQueue later s))
          end
      end
  end.

(** What the track loops come to on an open connection. *)
Definition tracks_added (line : string → string) (tracks : list string)
    (pc : PeerConnection) (s : State) : State :=
  set_messages (messages s ++ map line tracks)
    (set_peerConnection (Some (with_senders (senders pc ++ tracks) pc)) s).

(** A property every step of the page keeps: only an initiator's
    connection is ever in have-local-offer. *)
Definition role_consistent (s : State) : Prop :=
  negotiation_state s = Some have_local_offer → isInitiator s = true.

Definition refused (c : Candidate) : Prop := acceptable c = false.

(** What a step leaves out of the pool: [lost] and the pool after the step
    are the pool before it and the candidate the event delivers, if any;
    the candidates in [lost] are refused ones, and when there is one the
    handler's last log line reports an error. *)
Definition accounts_for (lost : list Candidate) (s : State) (e : event)
  : Prop :=
  pool (step s e) ++ lost ≡ₚ pool s ++ candidates_of [e]
  ∧ Forall refused lost
  ∧ (lost = []
     ∨ ∃ err, last (messages (step s e)) = Some ("❌ Error " +:+ err)).

(** What a step does to the candidates. When it puts the remote
    description in place, the connection takes the queued candidates from
    the front up to the first refused one, and the queue keeps what
    follows that one. In any case every candidate is accounted for. *)
Definition kept (s : State) (e : event) : Prop :=
  (role_consistent s → role_consistent (step s e))
  ∧ (remote_description_set s = false →
     remote_description_set (step s e) = true →
     applied (step s e)
     = applied s ++ take_while acceptable (iceCandidateQueue s)
     ∧ iceCandidateQueue (step s e)
       = tail (drop_while acceptable (iceCandidateQueue s)))
  ∧ (∃ lost, accounts_for lost s e).

(** The events that bring a session description, and a burst of candidate
    messages. *)
Definition carries_description (e : event) : bool :=
  match e with Offer _ | Answer _ => true | _ => false end.

Definition candidate_events (cs : list Candidate) : list event :=
  map (λ c, IceCandidate {| candidate := c |}) cs.

(** *** The states of section 4.3 of the specification

    The page keeps no such variable; this follows the specification's
    words: Idle until the local start action, AwaitingPeer until a
    start-session notification, then Initiating when the notification
    names this participant and Answering when it names another. *)
Inductive Phase := Idle | AwaitingPeer | Initiating | Answering.

Definition spec_phase_step (id : string) (p : Phase) (e : event) : Phase :=
  match p, e with
  | Idle, (StartClick (Return _) | MediaSettled (Return _)) => AwaitingPeer
  | AwaitingPeer, StartCall (Some d) =>
      if decide (initiator d = id) then Initiating else Answering
  | _, _ => p
  end.

Definition spec_phase (id : string) (tr : list event) : Phase :=
  foldl (spec_phase_step id) Idle tr.

End Client.

(** ** Runs of the server as socket.io can deliver them *)
Module ServerRun.

Import Server.

(** Every event of [tr] is enabled when its turn comes. *)
Fixpoint valid (tr : list event) (s : State) : bool :=
  match tr with
  | [] => true
  | e :: tr' => enabled e s && valid tr' (handle e s).1
  end.

Definition is_connection (e : event) : bool :=
  match e with Connection _ => true | _ => false end.

Definition connections (tr : list event) : nat :=
  length (filter (λ e, is_connection e = true) tr).

Definition disconnects (tr : list event) : nat :=
  length (filter (λ e, is_disconnect e = true) tr).

(** The numbers carried by the user-count broadcasts of a handler. *)
Definition user_counts (out : list effect) : list nat :=
  omap (λ f, match f with
             | IoEmit ev (Count n) =>
                 if bool_decide (ev = "user-count") then Some n else None
             | _ => None
             end) out.

End ServerRun.

(** ** What a page has sent, by kind *)
Module ClientSent.

Import RTC Client.

Definition is_offer (m : outgoing) : bool :=
  match m with EmitOffer _ => true | _ => false end.

Definition is_ready (m : outgoing) : bool :=
  match m with EmitReady => true | _ => false end.

Definition offers_sent (s : State) : list outgoing :=
  filter (λ m, is_offer m = true) (sent s).

Definition readies_sent (s : State) : list outgoing :=
  filter (λ m, is_ready m = true) (sent s).

(** A start-call that names [id]. *)
Definition names (id : string) (e : event) : bool :=
  match e with
  | StartCall (Some d) => bool_decide (initiator d = id)
  | _ => false
  end.

(** A page that has sent an offer holds a connection as initiator and has
    sent one offer only; a page that has sent an answer holds a connection;
    no page has sent both. *)
Definition one_role (s : State) : Prop :=
  (offers_sent s = []
   ∨ (length (offers_sent s) = 1
      ∧ is_Some (peerConnection s) ∧ isInitiator s = true))
  ∧ (answers_sent s = [] ∨ is_Some (peerConnection s))
  ∧ (offers_sent s = [] ∨ answers_sent s = []).

(** The start button is disabled once ready has been sent, and the camera
    has started by then. *)
Definition ready_started (s : State) : Prop :=
  readies_sent s = []
  ∨ (startBtn_disabled s = true ∧ is_Some (localStream s)).

(** A page that has sent ready once and has no camera request open. *)
Definition ready_once (s : State) : Prop :=
  mediaRequests s = 0
  ∧ (readies_sent s = []
     ∨ (length (readies_sent s) = 1 ∧ startBtn_disabled s = true)).

(** A click whose camera request is still open when the next event
    comes. *)
Definition leaves_request_open (e : event) : bool :=
  match e with StartClickPending true => true | _ => false end.

(** What no step undoes, and what a step keeps. *)
Definition steady (s : State) (e : event) : Prop :=
  socket_id (step s e) = socket_id s
  ∧ applied s `prefix_of` applied (step s e)
  ∧ (remote_description_set s = true →
     remote_description_set (step s e) = true)
  ∧ (is_Some (peerConnection s) → is_Some (peerConnection (step s e)))
  ∧ (one_role s → one_role (step s e))
  ∧ (ready_started s → ready_started (step s e))
  ∧ (leaves_request_open e = false →
     ready_once s → ready_once (step s e))
  ∧ (names (socket_id s) e = false →
     offers_sent (step s e) = offers_sent s).

(** The offer and the answer a page with these tracks creates. *)
Definition offered (tracks : list string) : Description :=
  {| sd_type := sdp_offer; sdp := session_text (with_senders tracks RTC.new) |}.

Definition answered (tracks : list string) : Description :=
  {| sd_type := sdp_answer; sdp := session_text (with_senders tracks RTC.new) |}.

End ClientSent.

(** ** TURN credentials: the endpoint of server.js, the helper of
    get-turn-credentials.js and the loader of the page *)
Module Turn.

(** [`${v}`] for an environment variable that may be unset. *)
Definition template (v : option string) : string := default "undefined" v.

(** One entry of [ice_servers]. *)
Record IceServer := {
  urls : string;
  username : option string;
  credential : option string
}.

(** The parsed body of Twilio's reply; the field may be missing. *)
Record TokenData := { ice_servers : option (list IceServer) }.

Record Request := {
  url : string;
  method : string;
  authorization : string
}.

(** [fetch(url, ...)] followed by [response.json()]: the data, or the
    failure of either. [base64] stands for
    [Buffer.from(...).toString('base64')]. *)
Definition Fetch := Request → outcome TokenData.

(** get-turn-credentials.js: [async function getTwilioTurnCredentials()] *)
Definition getTwilioTurnCredentials (base64 : string → string) (fetch : Fetch)
    (TWILIO_ACCOUNT_SID TWILIO_AUTH_TOKEN : option string)
  : outcome (option (list IceServer)) :=
  let url := "https://api.twilio.com/2010-04-01/Accounts/"
             +:+ template TWILIO_ACCOUNT_SID +:+ "/Tokens.json" in
  match fetch {| url := url; method := "POST";
                 authorization :=
                   "Basic " +:+ base64 (template TWILIO_ACCOUNT_SID +:+ ":"
                                        +:+ template TWILIO_AUTH_TOKEN) |} with
  | Return data => Return (ice_servers data)
  | Throw e => Throw e
  end.

(** What the endpoint answers: [res.json(...)] or
    [res.status(500).json(...)]. A field whose value is undefined is left
    out of the JSON text, which is how [None] reads here. *)
Inductive Body :=
| IceServersBody (iceServers : option (list IceServer))
| ErrorBody (error : string).

Record Reply := { status : nat; body : Body }.

(** server.js: [app.get('/turn-credentials', async (req, res) => { ... })];
    the reply and the lines of [console.error]. *)
Definition turn_credentials (base64 : string → string) (fetch : Fetch)
    (TWILIO_ACCOUNT_SID TWILIO_AUTH_TOKEN : option string)
  : Reply * list string :=
  let url := "https://api.twilio.com/2010-04-01/Accounts/"
             +:+ template TWILIO_ACCOUNT_SID +:+ "/Tokens.json" in
  let auth := base64 (template TWILIO_ACCOUNT_SID +:+ ":"
                      +:+ template TWILIO_AUTH_TOKEN) in
  match fetch {| url := url; method := "POST";
                 authorization := "Basic " +:+ auth |} with
  | Return data =>
      ({| status := 200; body := IceServersBody (ice_servers data) |}, [])
  | Throw error =>
      ({| status := 500; body := ErrorBody "Failed to get TURN credentials" |},
       ["Error getting TURN credentials: " +:+ error])
  end.

(** The page: [configuration.iceServers] and the log panel. *)
Record Loader := {
  configuration_iceServers : list IceServer;
  messages : list string
}.

(** [data.iceServers] of a parsed reply. *)
Definition data_iceServers (data : Body) : option (list IceServer) :=
  match data with
  | IceServersBody l => l
  | ErrorBody _ => None
  end.

(** index.html: [async function loadTurnCredentials()]; [reply] is what
    [fetch('/turn-credentials')] and [response.json()] come to. An array is
    truthy even when empty. *)
Definition loadTurnCredentials (reply : outcome Body) (p : Loader) : Loader :=
  match reply with
  | Return data =>
      match data_iceServers data with
      | Some servers =>
          {| configuration_iceServers := servers;
             messages := messages p ++ ["✅ Loaded Twilio TURN servers"] |}
      | None => p
      end
  | Throw _ =>
      {| configuration_iceServers := configuration_iceServers p;
         messages := messages p ++ ["⚠️ Using default STUN servers only"] |}
  end.

End Turn.

(** ** The page's media side: remote video, connection state, mute *)
Module Media.

Record Track := { track_id : string; kind : string; enabled : bool }.

(** [MediaStream.addTrack]: a track already in the stream is not added
    again. *)
Definition stream_addTrack (t : Track) (stream : list Track) : list Track :=
  if bool_decide (track_id t ∈ map track_id stream) then stream
  else stream ++ [t].

Definition getAudioTracks (stream : list Track) : list Track :=
  filter (λ t, kind t = "audio") stream.

Record View := {
  localStream : option (list Track);
  remoteVideo_srcObject : option (list Track);
  status : option (string * string);            (* updateStatus(class, text) *)
  isAudioMuted : bool;
  muteAudioBtn_textContent : string;
  muteAudioBtn_background : string;
  messages : list string                        (* logMessage *)
}.

Definition logMessage (line : string) (v : View) : View :=
  {| localStream := localStream v;
     remoteVideo_srcObject := remoteVideo_srcObject v;
     status := status v; isAudioMuted := isAudioMuted v;
     muteAudioBtn_textContent := muteAudioBtn_textContent v;
     muteAudioBtn_background := muteAudioBtn_background v;
     messages := messages v ++ [line] |}.

Definition updateStatus (class text : string) (v : View) : View :=
  {| localStream := localStream v;
     remoteVideo_srcObject := remoteVideo_srcObject v;
     status := Some (class, text); isAudioMuted := isAudioMuted v;
     muteAudioBtn_textContent := muteAudioBtn_textContent v;
     muteAudioBtn_background := muteAudioBtn_background v;
     messages := messages v |}.

Definition set_srcObject (stream : list Track) (v : View) : View :=
  {| localStream := localStream v;
     remoteVideo_srcObject := Some stream;
     status := status v; isAudioMuted := isAudioMuted v;
     muteAudioBtn_textContent := muteAudioBtn_textContent v;
     muteAudioBtn_background := muteAudioBtn_background v;
     messages := messages v |}.

(** [peerConnection.ontrack = (event) => { ... }] *)
Record TrackEvent := { track : Track; streams : list (list Track) }.

Definition ontrack (event : TrackEvent) (v : View) : View :=
  let v1 := logMessage ("🎥 Receiving remote " +:+ kind (track event)
                        +:+ " track") v in
  match streams event !! 0 with
  | Some stream =>
      updateStatus "connected" "✅ Connected - Video call active"
        (logMessage "✅ Remote video stream attached"
           (set_srcObject stream v1))
  | None => v1
  end.

(** The [receivers.forEach] of the fallback: the stream built so far and
    the view with its log. *)
Definition collect (acc : list Track * View) (receiver_track : option Track)
  : list Track * View :=
  match receiver_track with
  | Some t =>
      (stream_addTrack t acc.1,
       logMessage ("🔧 Manually added " +:+ kind t
                   +:+ " track to remote stream") acc.2)
  | None => acc
  end.

(** [peerConnection.onconnectionstatechange = () => { ... }];
    [connectionState], the number of senders and the receivers' tracks
    (null where a receiver has none) are read from the connection. *)
Definition onconnectionstatechange (connectionState : string) (senders : nat)
    (receivers : list (option Track)) (v : View) : View :=
  let v1 := logMessage ("Connection state: " +:+ connectionState) v in
  if bool_decide (connectionState = "connected") then
    let v2 :=
      logMessage ("📊 Sending " +:+ pretty senders +:+ " tracks, Receiving "
                  +:+ pretty (length receivers) +:+ " tracks")
        (updateStatus "connected" "✅ Connected - Video call active" v1) in
    match bool_decide (0 < length receivers), remoteVideo_srcObject v2 with
    | true, None =>
        let '(remoteStream, v3) := foldl collect ([], v2) receivers in
        if bool_decide (0 < length remoteStream) then
          logMessage "✅ Remote video stream manually attached"
            (set_srcObject remoteStream v3)
        else v3
    | _, _ => v2
    end
  else v1.

(** [audioTrack.enabled = v] on the first audio track of the stream. *)
Fixpoint set_first_audio (v : bool) (stream : list Track) : list Track :=
  match stream with
  | [] => []
  | t :: rest =>
      if bool_decide (kind t = "audio")
      then {| track_id := track_id t; kind := kind t; enabled := v |} :: rest
      else t :: set_first_audio v rest
  end.

(** [muteAudioBtn.onclick = () => { ... }] *)
Definition muteAudioBtn_onclick (v : View) : View :=
  match localStream v with
  | None => v
  | Some stream =>
      match getAudioTracks stream !! 0 with
      | None => v
      | Some _ =>
          let muted := negb (isAudioMuted v) in
          {| localStream := Some (set_first_audio (negb muted) stream);
             remoteVideo_srcObject := remoteVideo_srcObject v;
             status := status v;
             isAudioMuted := muted;
             muteAudioBtn_textContent :=
               if muted then "🔇 Unmute Audio" else "🎤 Mute Audio";
             muteAudioBtn_background :=
               if muted then "#28a745" else "#dc3545";
             messages :=
               messages v ++ [if muted then "🔇 Audio muted"
                              else "🎤 Audio unmuted"] |}
      end
  end.

(** The audio track the button acts on, and the view without its log. *)
Definition audioTrack (v : View) : option Track :=
  stream ← localStream v; getAudioTracks stream !! 0.

Definition controls (v : View)
  : option (list Track) * bool * string * string :=
  (localStream v, isAudioMuted v, muteAudioBtn_textContent v,
   muteAudioBtn_background v).

Definition receiver_tracks (receivers : list (option Track)) : list Track :=
  omap id receivers.

Definition with_enabled (b : bool) (t : Track) : Track :=
  {| track_id := track_id t; kind := kind t; enabled := b |}.

End Media.

(** * Properties of the insertion-ordered set *)
Section JSSetFacts.

Implicit Types (x y : string) (s : list string).

Lemma JSSet_add_old x s : x ∈ s → JSSet.add x s = s.
Proof. intros Hx. unfold JSSet.add, JSSet.has. by rewrite bool_decide_eq_true_2. Qed.

Lemma JSSet_add_new x s : x ∉ s → JSSet.add x s = s ++ [x].
Proof. intros Hx. unfold JSSet.add, JSSet.has. by rewrite bool_decide_eq_false_2. Qed.

Lemma JSSet_elem_of_add x y s : y ∈ JSSet.add x s ↔ y = x ∨ y ∈ s.
Proof.
  destruct (decide (x ∈ s)) as [Hx|Hx].
  - rewrite JSSet_add_old by done. naive_solver.
  - rewrite JSSet_add_new by done. set_solver.
Qed.

Lemma JSSet_add_NoDup x s : NoDup s → NoDup (JSSet.add x s).
Proof.
  intros Hs. destruct (decide (x ∈ s)) as [Hx|Hx].
  - by rewrite JSSet_add_old.
  - rewrite JSSet_add_new by done. apply NoDup_app. set_solver by eauto using NoDup_singleton.
Qed.

Lemma JSSet_add_add x s : JSSet.add x (JSSet.add x s) = JSSet.add x s.
Proof. apply JSSet_add_old. rewrite JSSet_elem_of_add. by left. Qed.

Lemma JSSet_elem_of_delete x y s : y ∈ JSSet.delete x s ↔ y ≠ x ∧ y ∈ s.
Proof. unfold JSSet.delete. by rewrite list_elem_of_filter. Qed.

Lemma JSSet_delete_NoDup x s : NoDup s → NoDup (JSSet.delete x s).
Proof. apply NoDup_filter. Qed.

Lemma JSSet_delete_absent x s : x ∉ s → JSSet.delete x s = s.
Proof.
  unfold JSSet.delete. induction s as [|y s IH]; intros Hx; [done|].
  rewrite filter_cons_True by set_solver. f_equal. apply IH. set_solver.
Qed.

Lemma JSSet_delete_delete x s : JSSet.delete x (JSSet.delete x s) = JSSet.delete x s.
Proof. apply JSSet_delete_absent. rewrite JSSet_elem_of_delete. naive_solver. Qed.

(** Deleting a member of a duplicate-free set takes away exactly one entry. *)
Lemma JSSet_size_delete x s :
  NoDup s → x ∈ s → S (JSSet.size (JSSet.delete x s)) = JSSet.size s.
Proof.
  unfold JSSet.size, JSSet.delete. induction 1 as [|y s Hy Hs IH]; intros Hx.
  - by apply elem_of_nil in Hx.
  - destruct (decide (y = x)) as [->|Hne].
    + rewrite filter_cons_False by naive_solver.
      change (filter (λ y, y ≠ x) s) with (JSSet.delete x s).
      by rewrite JSSet_delete_absent.
    + rewrite filter_cons_True by done. simpl. f_equal. apply IH. set_solver.
Qed.

End JSSetFacts.

(** * The signalling server *)
Section ServerFacts.

Import Server.

Implicit Types (s : State) (e : event) (tr : list event) (id a b q : string).

Lemma on_ready_state id s :
  (on_ready id s).1
  = {| clients := clients s; readyClients := JSSet.add id (readyClients s) |}.
Proof. unfold on_ready. by repeat case_decide. Qed.

(** The network output of a ready signal: the count, and the start-call
    exactly when the set now has two members. *)
Lemma on_ready_emissions id s :
  let ready := JSSet.add id (readyClients s) in
  emissions (on_ready id s).2
  = IoEmit "ready-count" (Count (length ready))
    :: (if decide (length ready = 2)
        then [IoEmit "start-call" (StartCall (ready !! 0))] else []).
Proof.
  unfold on_ready, JSSet.size, JSSet.to_array. simpl.
  case_decide; [done|]. by case_decide.
Qed.

Lemma on_ready_start_calls id s :
  let ready := JSSet.add id (readyClients s) in
  start_calls (on_ready id s).2
  = if decide (length ready = 2)
    then [IoEmit "start-call" (StartCall (ready !! 0))] else [].
Proof.
  unfold on_ready, JSSet.size, JSSet.to_array. simpl.
  case_decide; [done|]. by case_decide.
Qed.

Lemma run_app_state tr1 tr2 s :
  (run (tr1 ++ tr2) s).1 = (run tr2 (run tr1 s).1).1.
Proof.
  revert s. induction tr1 as [|e tr1 IH]; intros s; [done|].
  simpl. destruct (handle e s) as [s1 out] eqn:He.
  specialize (IH s1). destruct (run (tr1 ++ tr2) s1), (run tr1 s1). done.
Qed.

Lemma run_app_out tr1 tr2 s :
  (run (tr1 ++ tr2) s).2 = (run tr1 s).2 ++ (run tr2 (run tr1 s).1).2.
Proof.
  revert s. induction tr1 as [|e tr1 IH]; intros s; [done|].
  simpl. destruct (handle e s) as [s1 out] eqn:He.
  specialize (IH s1). destruct (run (tr1 ++ tr2) s1), (run tr1 s1).
  simpl in *. by rewrite IH.
Qed.

Lemma run_cons e tr s :
  run (e :: tr) s
  = ((run tr (handle e s).1).1, (handle e s).2 :: (run tr (handle e s).1).2).
Proof. simpl. destruct (handle e s). by destruct (run tr _). Qed.

Lemma start_calls_app (out1 out2 : list effect) :
  start_calls (out1 ++ out2) = start_calls out1 ++ start_calls out2.
Proof. apply filter_app. Qed.

(** While the ready set has fewer than two members, none of them leaves
    and no newcomer signals ready, no call is started and the set stays as
    it is. *)
Lemma run_quiet tr s :
  ready_only_from (readyClients s) tr = true →
  Forall (λ x, stays x tr = true) (readyClients s) →
  length (readyClients s) < 2 →
  start_calls (concat (run tr s).2) = []
  ∧ readyClients (run tr s).1 = readyClients s.
Proof.
  revert s. induction tr as [|e tr IH]; intros s Hq Hst Hlen; [done|].
  apply andb_prop in Hq as [He Hq].
  rewrite run_cons. simpl.
  assert (start_calls (handle e s).2 = []
          ∧ readyClients (handle e s).1 = readyClients s) as [Hout Hsame].
  { destruct e as [id|id|id d|id d|id d|id]; try done.
    - apply bool_decide_eq_true_1 in He. simpl.
      rewrite on_ready_start_calls, on_ready_state. simpl.
      rewrite JSSet_add_old by done. split; [|done].
      case_decide; [lia|done].
    - split; [done|]. simpl. apply JSSet_delete_absent. intros Hin.
      rewrite Forall_forall in Hst. specialize (Hst _ Hin).
      simpl in Hst. rewrite bool_decide_eq_true_2 in Hst; done. }
  destruct (IH (handle e s).1) as [IH1 IH2].
  - by rewrite Hsame.
  - rewrite Hsame. eapply Forall_impl; [exact Hst|].
    intros x Hx. simpl in Hx. by apply andb_prop in Hx as [_ ?].
  - by rewrite Hsame.
  - rewrite start_calls_app, Hout, IH1, IH2. done.
Qed.

(** While three or more are ready after every event, no call is
    started. *)
Lemma run_crowded tr s :
  stays_crowded tr s = true → start_calls (concat (run tr s).2) = [].
Proof.
  revert s. induction tr as [|e tr IH]; intros s Hq; [done|].
  simpl in Hq. apply andb_prop in Hq as [He Hq].
  apply bool_decide_eq_true_1 in He.
  rewrite run_cons. simpl. rewrite start_calls_app, (IH _ Hq), app_nil_r.
  destruct e as [id|id|id d|id d|id d|id]; try done. simpl in *.
  rewrite on_ready_start_calls. rewrite on_ready_state in He.
  unfold JSSet.size in He. simpl in *. case_decide; [lia|done].
Qed.

(** A ready participant stays ready over every event but its own
    disconnect. *)
Lemma ready_member_stays x e s :
  x ∈ readyClients s → is_disconnect_of x e = false →
  x ∈ readyClients (handle e s).1.
Proof.
  intros Hx He. destruct e as [id|id|id d|id d|id d|id]; try done; simpl.
  - rewrite on_ready_state. simpl. unfold JSSet.add.
    case_match; [done|]. apply elem_of_app. by left.
  - unfold JSSet.delete. apply list_elem_of_filter. split; [|done].
    simpl in He. apply bool_decide_eq_false_1 in He. congruence.
Qed.

Lemma three_members (a b c : string) (l : list string) :
  a ≠ b → a ≠ c → b ≠ c → a ∈ l → b ∈ l → c ∈ l → 3 ≤ length l.
Proof.
  intros Hab Hac Hbc Ha Hb Hc.
  assert ([a; b; c] ⊆+ l) as Hsub.
  { apply NoDup_submseteq.
    - repeat constructor; set_solver.
    - intros x Hx. set_solver. }
  by apply submseteq_length in Hsub.
Qed.

(** While three ready participants stay, three or more are ready. *)
Lemma three_stay_crowded tr s (a b c : string) :
  a ≠ b → a ≠ c → b ≠ c →
  a ∈ readyClients s → b ∈ readyClients s → c ∈ readyClients s →
  stays a tr = true → stays b tr = true → stays c tr = true →
  stays_crowded tr s = true.
Proof.
  intros Hab Hac Hbc. revert s.
  induction tr as [|e tr IH]; intros s Ha Hb Hc Sa Sb Sc; [done|].
  simpl in Sa, Sb, Sc.
  apply andb_prop in Sa as [Ea Sa]. apply negb_true_iff in Ea.
  apply andb_prop in Sb as [Eb Sb]. apply negb_true_iff in Eb.
  apply andb_prop in Sc as [Ec Sc]. apply negb_true_iff in Ec.
  pose proof (ready_member_stays a e s Ha Ea).
  pose proof (ready_member_stays b e s Hb Eb).
  pose proof (ready_member_stays c e s Hc Ec).
  simpl. apply andb_true_intro. split; [|by apply IH].
  apply bool_decide_eq_true_2. by apply (three_members a b c).
Qed.

Lemma received_by_io q s ev p :
  received_by q s [IoEmit ev p]
  = if decide (q ∈ dom (clients s)) then [(ev, p)] else [].
Proof.
  unfold received_by. rewrite filter_cons, filter_nil. simpl.
  by repeat case_decide.
Qed.

Lemma received_by_broadcast q s sender ev p :
  received_by q s [BroadcastEmit sender ev p]
  = if decide (q ∈ dom (clients s) ∧ q ≠ sender) then [(ev, p)] else [].
Proof.
  unfold received_by. rewrite filter_cons, filter_nil. simpl.
  repeat case_decide; set_solver.
Qed.

End ServerFacts.

(** * The matcher: who becomes initiator *)
Section Matcher.

Import Server.

(** C1. Take any run from a state with nobody ready in which [a] signals
    ready, then [b] (another participant) does, with no ready signal from
    anyone else before [b]'s and [a] still there when it arrives; [a] may
    repeat its signal, and connections, relayed messages and other
    disconnects may come in any order. Up to [b]'s signal no start-call is
    sent. [b]'s signal brings the ready set to size 2 and its handler sends
    the ready-count and one start-call naming [a], the first to be ready, as
    initiator; every connected participant receives that start-call once,
    and it is the only start-call of the whole run. *)
Theorem first_ready_is_initiator (pre mid : list event) (a b : string)
    (s0 : State) :
  readyClients s0 = [] →
  a ≠ b →
  no_ready pre = true →
  ready_only_from [a] mid = true →
  stays a mid = true →
  let before := run (pre ++ Ready a :: mid) s0 in
  let after := on_ready b before.1 in
  let full := run (pre ++ Ready a :: mid ++ [Ready b]) s0 in
  start_calls (concat before.2) = []
  ∧ readyClients before.1 = [a]
  ∧ readyClients after.1 = [a; b]
  ∧ emissions after.2
    = [ IoEmit "ready-count" (Count 2);
        IoEmit "start-call" (StartCall (Some a)) ]
  ∧ (∀ q, received_by q after.1 (start_calls after.2)
          = if decide (q ∈ dom (clients after.1))
            then [("start-call", StartCall (Some a))] else [])
  ∧ full.1 = after.1
  ∧ full.2 = before.2 ++ [after.2]
  ∧ start_calls (concat full.2) = [ IoEmit "start-call" (StartCall (Some a)) ].
Proof.
  intros Hempty Hab Hpre Hmid Hstays before after full.
  (* the run up to b's signal *)
  assert (start_calls (concat before.2) = [] ∧ readyClients before.1 = [a])
    as [Hnone Hready].
  { subst before. rewrite run_app_state, run_app_out, run_cons. simpl.
    destruct (run_quiet pre s0) as [Hp1 Hp2].
    { by rewrite Hempty. }
    { rewrite Hempty. constructor. }
    { rewrite Hempty. simpl. lia. }
    set (s1 := (run pre s0).1) in *.
    assert (readyClients (on_ready a s1).1 = [a]) as Ha.
    { rewrite on_ready_state. simpl. by rewrite Hp2, Hempty. }
    destruct (run_quiet mid (on_ready a s1).1) as [Hm1 Hm2].
    { by rewrite Ha. }
    { rewrite Ha. by repeat constructor. }
    { rewrite Ha. simpl. lia. }
    rewrite concat_app, start_calls_app, Hp1. simpl.
    rewrite start_calls_app, Hm1, on_ready_start_calls.
    rewrite Hp2, Hempty, Hm2, Ha. done. }
  assert (JSSet.add b (readyClients before.1) = [a; b]) as Hadd.
  { rewrite Hready. apply JSSet_add_new. set_solver. }
  assert (start_calls after.2 = [IoEmit "start-call" (StartCall (Some a))])
    as Hstart.
  { subst after. rewrite on_ready_start_calls. simpl. by rewrite Hadd. }
  assert (full = (after.1, before.2 ++ [after.2])) as Hfull.
  { subst full after before.
    change (pre ++ Ready a :: mid ++ [Ready b])
      with (pre ++ (Ready a :: mid) ++ [Ready b]).
    rewrite app_assoc. apply injective_projections.
    - by rewrite run_app_state, run_cons.
    - by rewrite run_app_out, run_cons. }
  split_and!; try done.
  - subst after. rewrite on_ready_state. simpl. by rewrite Hadd.
  - subst after. rewrite on_ready_emissions. simpl. by rewrite Hadd.
  - intros q. rewrite Hstart. apply received_by_io.
  - by rewrite Hfull.
  - by rewrite Hfull.
  - rewrite Hfull. simpl. rewrite concat_app, start_calls_app, Hnone. simpl.
    by rewrite app_nil_r.
Qed.

(** The end-to-end scenario of the specification, with [b1] connecting
    before [a1] and [a1] ready first. *)
Lemma first_ready_is_initiator_witness :
  let pre := [Connection "b1"; Connection "a1"] in
  let mid := [Connection "c1"; Ready "a1"; Disconnect "c1"] in
  emissions (on_ready "b1" (run (pre ++ Ready "a1" :: mid) initial).1).2
  = [ IoEmit "ready-count" (Count 2);
      IoEmit "start-call" (StartCall (Some "a1")) ]
  ∧ start_calls (concat (run (pre ++ Ready "a1" :: mid ++ [Ready "b1"]) initial).2)
    = [ IoEmit "start-call" (StartCall (Some "a1")) ].
Proof.
  intros pre mid.
  pose proof (first_ready_is_initiator pre mid "a1" "b1" initial
                eq_refl ltac:(done) eq_refl eq_refl eq_refl) as H.
  simpl in H. destruct H as (_ & _ & _ & Hem & _ & _ & _ & Hall).
  split; [exact Hem | exact Hall].
Defined.

(** C5, as stated, fails. After [a1] and [b1] have signalled ready, a
    second ready signal from [a1] leaves the ready set as it is, and the
    handler sends start-call once more: two start-calls in a run with one
    transition into size 2. *)
Lemma repeated_ready_restarts_call :
  let tr := [Connection "a1"; Connection "b1"; Ready "a1"; Ready "b1"] in
  let s := (run tr initial).1 in
  "a1" ∈ readyClients s
  ∧ JSSet.size (readyClients s) = 2
  ∧ readyClients (on_ready "a1" s).1 = readyClients s
  ∧ start_calls (on_ready "a1" s).2
    = [ IoEmit "start-call" (StartCall (Some "a1")) ]
  ∧ start_calls (concat (run (tr ++ [Ready "a1"]) initial).2)
    = [ IoEmit "start-call" (StartCall (Some "a1"));
        IoEmit "start-call" (StartCall (Some "a1")) ].
Proof. vm_compute. split_and!; try done. set_solver. Qed.

(** C5, amended. A ready signal from a participant already in the ready
    set leaves the registry (both the clients and the ready set) unchanged.
    The handler still sends the ready-count, with the unchanged size, and,
    when that size is 2, a start-call naming the same first-ready
    participant. *)
Theorem repeated_ready_keeps_registry (s : State) (id : string) :
  id ∈ readyClients s →
  (on_ready id s).1 = s
  ∧ emissions (on_ready id s).2
    = IoEmit "ready-count" (Count (JSSet.size (readyClients s)))
      :: (if decide (JSSet.size (readyClients s) = 2)
          then [IoEmit "start-call" (StartCall (readyClients s !! 0))]
          else []).
Proof.
  intros Hin. rewrite on_ready_state, on_ready_emissions. simpl.
  rewrite JSSet_add_old by done. by destruct s.
Qed.

Lemma repeated_ready_keeps_registry_witness :
  let s := (run [Connection "a1"; Connection "b1"; Connection "c1";
                 Ready "a1"; Ready "b1"; Ready "c1"] initial).1 in
  (on_ready "b1" s).1 = s
  ∧ emissions (on_ready "b1" s).2 = [ IoEmit "ready-count" (Count 3) ].
Proof.
  intros s.
  assert ("b1" ∈ readyClients s) as Hin.
  { by apply (bool_decide_eq_true_1 ("b1" ∈ readyClients s)). }
  exact (repeated_ready_keeps_registry s "b1" Hin).
Defined.

(** C8, as stated, fails. With [a1] and [b1] paired, [c1] signals ready
    and no start-call is sent. Then [a1] leaves and a second ready signal of
    [c1] brings a start-call that names [b1], with [c1] the second of the
    two ready: [c1] is the answerer. Or [a1] and [b1] both leave and [d1]
    signals ready: the start-call names [c1] as initiator. Both runs are
    runs socket.io can deliver, and [c1] receives both start-calls. *)
Lemma third_ready_is_paired_later :
  let tr0 := [ Connection "a1"; Connection "b1"; Connection "c1";
               Ready "a1"; Ready "b1" ] in
  let s := (run tr0 initial).1 in
  let after := on_ready "c1" s in
  let tr1 := [ Disconnect "a1"; Ready "c1" ] in
  let tr2 := [ Disconnect "a1"; Disconnect "b1"; Connection "d1"; Ready "d1" ] in
  (JSSet.size (readyClients s) = 2
   ∧ ("c1" ∉ readyClients s)
   ∧ start_calls after.2 = [])
  ∧ (ServerRun.valid (tr0 ++ Ready "c1" :: tr1) initial = true
     ∧ start_calls (concat (run tr1 after.1).2)
       = [ IoEmit "start-call" (StartCall (Some "b1")) ]
     ∧ readyClients (run tr1 after.1).1 = ["b1"; "c1"]
     ∧ received_by "c1" (run tr1 after.1).1
         (start_calls (concat (run tr1 after.1).2))
       = [ ("start-call", StartCall (Some "b1")) ])
  ∧ (ServerRun.valid (tr0 ++ Ready "c1" :: tr2) initial = true
     ∧ start_calls (concat (run tr2 after.1).2)
       = [ IoEmit "start-call" (StartCall (Some "c1")) ]
     ∧ readyClients (run tr2 after.1).1 = ["c1"; "d1"]
     ∧ received_by "c1" (run tr2 after.1).1
         (start_calls (concat (run tr2 after.1).2))
       = [ ("start-call", StartCall (Some "c1")) ]).
Proof. vm_compute. split_and!; try done. set_solver. Qed.

(** C8, amended. When two or more are ready already, a ready signal from a
    further participant [c] is answered with the ready-count alone: no
    start-call is sent, to anyone, and [c] goes to the end of the ready
    order, behind the two that were paired. No later event makes the server
    send a start-call for as long as three or more are ready after every
    event; that is so, in particular, while two of the participants that were
    ready before and [c] itself do not disconnect, whoever else connects,
    signals ready or leaves. *)
Theorem third_ready_is_not_paired (s : State) (c : string) (tr : list event) :
  2 ≤ JSSet.size (readyClients s) →
  c ∉ readyClients s →
  let after := on_ready c s in
  emissions after.2
  = [ IoEmit "ready-count" (Count (S (JSSet.size (readyClients s)))) ]
  ∧ start_calls after.2 = []
  ∧ (∀ q, received_by q after.1 (start_calls after.2) = [])
  ∧ readyClients after.1 = readyClients s ++ [c]
  ∧ take 2 (JSSet.to_array (readyClients after.1))
    = take 2 (JSSet.to_array (readyClients s))
  ∧ (stays_crowded tr after.1 = true →
     start_calls (concat (run tr after.1).2) = [])
  ∧ (∀ a b, a ∈ readyClients s → b ∈ readyClients s → a ≠ b →
            stays a tr = true → stays b tr = true → stays c tr = true →
            start_calls (concat (run tr after.1).2) = []).
Proof.
  intros Hlen Hc after.
  assert (readyClients after.1 = readyClients s ++ [c]) as Hafter.
  { subst after. rewrite on_ready_state. simpl. by rewrite JSSet_add_new. }
  assert (start_calls after.2 = []) as Hnone.
  { subst after. rewrite on_ready_start_calls. simpl.
    rewrite JSSet_add_new by done. rewrite length_app. simpl.
    unfold JSSet.size in Hlen. case_decide; [lia|done]. }
  split_and!; try done.
  - subst after. rewrite on_ready_emissions. simpl.
    rewrite JSSet_add_new by done. rewrite length_app. simpl.
    unfold JSSet.size in *. case_decide; [lia|].
    f_equal. f_equal. f_equal. lia.
  - intros q. by rewrite Hnone.
  - rewrite Hafter. unfold JSSet.to_array, JSSet.size in *.
    by rewrite take_app_le.
  - apply run_crowded.
  - intros a b Ha Hb Hab Sa Sb Sc. apply run_crowded.
    apply (three_stay_crowded tr after.1 a b c); try done.
    + intros ->. done.
    + intros ->. done.
    + rewrite Hafter. apply elem_of_app. by left.
    + rewrite Hafter. apply elem_of_app. by left.
    + rewrite Hafter. apply elem_of_app. right. by apply list_elem_of_singleton.
Qed.

Lemma third_ready_is_not_paired_witness :
  let s := (run [Connection "a1"; Connection "b1"; Connection "c1";
                 Ready "a1"; Ready "b1"] initial).1 in
  let tr := [ Connection "d1"; Ready "d1"; Ready "a1"; Disconnect "d1" ] in
  emissions (on_ready "c1" s).2 = [ IoEmit "ready-count" (Count 3) ]
  ∧ start_calls (concat (run tr (on_ready "c1" s).1).2) = [].
Proof.
  intros s tr.
  assert (2 ≤ JSSet.size (readyClients s)) as Hlen by (vm_compute; lia).
  assert ("c1" ∉ readyClients s) as Hc.
  { by apply (bool_decide_eq_false_1 ("c1" ∈ readyClients s)). }
  destruct (third_ready_is_not_paired s "c1" tr Hlen Hc)
    as (Hem & _ & _ & _ & _ & _ & Hlater).
  split; [exact Hem|].
  apply (Hlater "a1" "b1"); try done.
  - by apply (bool_decide_eq_true_1 ("a1" ∈ readyClients s)).
  - by apply (bool_decide_eq_true_1 ("b1" ∈ readyClients s)).
Defined.

End Matcher.

(** * The registry and the relay *)
Section Registry.

Import Server.

Lemma State_eta (s : State) :
  {| clients := clients s; readyClients := readyClients s |} = s.
Proof. by destruct s. Qed.

(** After [id] left, a ready signal from [q] is counted over a set that is
    one smaller than it would have been. *)
Lemma JSSet_size_add_delete (id q : string) (r : list string) :
  NoDup r → id ∈ r → q ≠ id →
  S (JSSet.size (JSSet.add q (JSSet.delete id r))) = JSSet.size (JSSet.add q r).
Proof.
  intros Hnd Hid Hq. destruct (decide (q ∈ r)) as [Hin|Hout].
  - rewrite !JSSet_add_old; [by apply JSSet_size_delete|done|].
    by apply JSSet_elem_of_delete.
  - rewrite !JSSet_add_new; [|done|].
    + unfold JSSet.size. rewrite !length_app. simpl.
      pose proof (JSSet_size_delete id r Hnd Hid) as Hsz.
      unfold JSSet.size in Hsz. lia.
    + rewrite JSSet_elem_of_delete. naive_solver.
Qed.

(** C6. Disconnect takes [id] out of the clients map and out of the ready
    set and leaves every other participant where it was; each of the two
    sizes goes down by one exactly when [id] was a member; a second
    disconnect of [id] changes nothing. The handler broadcasts the
    user-count of the clients that remain, and the ready-count broadcast of
    the next ready signal is taken over the ready set without [id]: one
    less than without the disconnect, when [id] had been ready. *)
Theorem disconnect_removes_once (s : State) (id : string) :
  NoDup (readyClients s) →
  let s' := (on_disconnect id s).1 in
  (clients s' !! id = None ∧ id ∉ readyClients s')
  ∧ (∀ j, j ≠ id →
       clients s' !! j = clients s !! j
       ∧ (j ∈ readyClients s' ↔ j ∈ readyClients s))
  ∧ size (clients s')
    = size (clients s) - (if decide (is_Some (clients s !! id)) then 1 else 0)
  ∧ JSSet.size (readyClients s')
    = JSSet.size (readyClients s)
      - (if decide (id ∈ readyClients s) then 1 else 0)
  ∧ (on_disconnect id s').1 = s'
  ∧ emissions (on_disconnect id s).2
    = [ IoEmit "user-count" (Count (size (clients s'))) ]
  ∧ (∀ q, head (emissions (on_ready q s').2)
          = Some (IoEmit "ready-count"
                    (Count (JSSet.size (JSSet.add q (readyClients s'))))))
  ∧ (∀ q, id ∈ readyClients s → q ≠ id →
          S (JSSet.size (JSSet.add q (readyClients s')))
          = JSSet.size (JSSet.add q (readyClients s))).
Proof.
  intros Hnd s'. subst s'. simpl. split_and!.
  - apply lookup_delete_eq.
  - rewrite JSSet_elem_of_delete. naive_solver.
  - intros j Hj. split; [by apply lookup_delete_ne|].
    rewrite JSSet_elem_of_delete. naive_solver.
  - rewrite map_size_delete. case_decide as Hc.
    + destruct Hc as [x ->]. simpl. lia.
    + apply eq_None_not_Some in Hc. rewrite Hc. simpl. lia.
  - case_decide as Hc.
    + pose proof (JSSet_size_delete id _ Hnd Hc). lia.
    + rewrite JSSet_delete_absent by done. lia.
  - unfold on_disconnect. simpl.
    by rewrite delete_delete_eq, JSSet_delete_delete.
  - done.
  - intros q. by rewrite on_ready_emissions.
  - intros q Hin Hq. by apply JSSet_size_add_delete.
Qed.

Lemma disconnect_removes_once_witness :
  let s := (run [Connection "a1"; Connection "b1"; Ready "a1"; Ready "b1"]
              initial).1 in
  let s' := (on_disconnect "a1" s).1 in
  readyClients s' = ["b1"]
  ∧ emissions (on_disconnect "a1" s).2 = [ IoEmit "user-count" (Count 1) ]
  ∧ head (emissions (on_ready "c1" s').2)
    = Some (IoEmit "ready-count" (Count 2)).
Proof.
  intros s s'.
  assert (NoDup (readyClients s)) as Hnd.
  { by apply (bool_decide_eq_true_1 (NoDup (readyClients s))). }
  destruct (disconnect_removes_once s "a1" Hnd)
    as (_ & _ & _ & _ & _ & Hem & Hnext & _).
  split_and!; [done | exact Hem | exact (Hnext "c1")].
Defined.

(** Every step of the server keeps the ready set free of duplicates. *)
Lemma handle_NoDup (e : event) (s : State) :
  NoDup (readyClients s) → NoDup (readyClients (handle e s).1).
Proof.
  intros Hnd. destruct e; simpl; try done.
  - rewrite on_ready_state. simpl. by apply JSSet_add_NoDup.
  - by apply JSSet_delete_NoDup.
Qed.

Lemma reachable_NoDup (s : State) : reachable s → NoDup (readyClients s).
Proof.
  induction 1 as [|e s _ IH _]; [constructor|]. by apply handle_NoDup.
Qed.

(** C10. In every state the server can be in, whoever is in the ready set
    is a key of the clients map. *)
Theorem ready_subset_of_connected (s : State) (id : string) :
  reachable s → id ∈ readyClients s → id ∈ dom (clients s).
Proof.
  intros Hreach. revert id.
  induction Hreach as [|e s _ IH Hen]; intros id Hid.
  - by apply elem_of_nil in Hid.
  - destruct e as [c|r|p d|p d|p d|x]; simpl in *; try by apply IH.
    + rewrite dom_insert_L. set_solver.
    + rewrite on_ready_state in *. simpl in *.
      apply JSSet_elem_of_add in Hid as [->|Hid]; [|by apply IH].
      apply bool_decide_eq_true_1 in Hen. by apply elem_of_dom.
    + rewrite dom_delete_L. apply JSSet_elem_of_delete in Hid as [Hne Hid].
      specialize (IH _ Hid). set_solver.
Qed.

Lemma ready_subset_of_connected_witness :
  let s := (handle (Disconnect "b1")
              (handle (Ready "b1")
                 (handle (Ready "a1")
                    (handle (Connection "b1")
                       (handle (Connection "a1") initial).1).1).1).1).1 in
  "a1" ∈ dom (clients s).
Proof.
  intros s. apply (ready_subset_of_connected s "a1").
  - subst s. repeat (apply reachable_step; [|reflexivity]).
    apply reachable_initial.
  - by apply (bool_decide_eq_true_1 ("a1" ∈ readyClients s)).
Defined.

(** C4. An offer, an answer or a candidate from [p] leaves the server's
    state as it was (nothing is kept back), and the handler's one emission
    hands the body, untouched and tagged [from = p], to every connected
    participant other than [p]: each of them receives exactly that one
    message, [p] and the unconnected receive none. *)
Theorem relay_forwards_to_others (s : State) (p q body : string) :
  let others (ev field : string) :=
    if decide (q ∈ dom (clients s) ∧ q ≠ p)
    then [(ev, Relayed field body p)] else [] in
  ((on_offer p {| offer := body |} s).1 = s
   ∧ emissions (on_offer p {| offer := body |} s).2
     = [ BroadcastEmit p "offer" (Relayed "offer" body p) ]
   ∧ received_by q s (on_offer p {| offer := body |} s).2
     = others "offer" "offer")
  ∧ ((on_answer p {| answer := body |} s).1 = s
     ∧ emissions (on_answer p {| answer := body |} s).2
       = [ BroadcastEmit p "answer" (Relayed "answer" body p) ]
     ∧ received_by q s (on_answer p {| answer := body |} s).2
       = others "answer" "answer")
  ∧ ((on_ice_candidate p {| candidate := body |} s).1 = s
     ∧ emissions (on_ice_candidate p {| candidate := body |} s).2
       = [ BroadcastEmit p "ice-candidate" (Relayed "candidate" body p) ]
     ∧ received_by q s (on_ice_candidate p {| candidate := body |} s).2
       = others "ice-candidate" "candidate").
Proof.
  intros others. subst others. simpl.
  split_and!; try done; apply received_by_broadcast.
Qed.

(** The scenario of the specification: [a1] connects and signals ready,
    [b1] connects and signals ready, the election names [a1]; [a1]'s offer
    reaches [b1] and [b1]'s answer reaches [a1], each tagged with its
    sender. *)
Example election_then_relay :
  let tr := [ Connection "a1"; Ready "a1"; Connection "b1"; Ready "b1" ] in
  let s := (run tr initial).1 in
  emissions (on_ready "b1" (run [Connection "a1"; Ready "a1"; Connection "b1"]
                              initial).1).2
  = [ IoEmit "ready-count" (Count 2);
      IoEmit "start-call" (StartCall (Some "a1")) ]
  ∧ received_by "b1" s (on_offer "a1" {| offer := "X" |} s).2
    = [ ("offer", Relayed "offer" "X" "a1") ]
  ∧ received_by "a1" s (on_offer "a1" {| offer := "X" |} s).2 = []
  ∧ received_by "a1" s (on_answer "b1" {| answer := "Y" |} s).2
    = [ ("answer", Relayed "answer" "Y" "b1") ].
Proof. vm_compute. done. Qed.

End Registry.

(** Unfolding the handlers' plumbing down to plain functions on states. *)
Ltac unfold_M :=
  unfold mbind, Client.M_bind, mret, Client.M_ret, Client.gets, Client.modify,
    Client.call, Client.throw, Client.try_catch, Client.logMessage,
    Client.socket_emit in *.

(** * The client: the two loops *)
Section ClientLoops.

Import RTC Client.

Lemma drop_while_nil {A} (p : A → bool) (l : list A) :
  drop_while p l = [] → take_while p l = l ∧ Forall (λ x, p x = true) l.
Proof.
  induction l as [|x l IH]; simpl; [done|].
  destruct (p x) eqn:Hx; [|done]. intros H.
  destruct (IH H) as [-> ?]. split; [done|]. by constructor.
Qed.

Lemma drop_while_cons {A} (p : A → bool) (l : list A) x l' :
  drop_while p l = x :: l' → l = take_while p l ++ x :: l' ∧ p x = false.
Proof.
  induction l as [|y l IH]; simpl; [done|].
  destruct (p y) eqn:Hy.
  - intros H. destruct (IH H) as [Hl ?]. split; [|done]. simpl. by f_equal.
  - intros [= -> ->]. done.
Qed.

Lemma take_while_all {A} (p : A → bool) (l : list A) :
  Forall (λ x, p x = true) l → take_while p l = l ∧ drop_while p l = [].
Proof.
  induction 1 as [|x l Hx _ [IH1 IH2]]; simpl; [done|].
  by rewrite Hx, IH1, IH2.
Qed.

(** A queue is accepted as a whole, or splits at the first candidate the
    browser refuses. *)
Lemma queue_cases (q : list Candidate) :
  (take_while acceptable q = q ∧ drop_while acceptable q = [])
  ∨ (∃ ok bad later,
       q = ok ++ bad :: later ∧ refused bad
       ∧ take_while acceptable (ok ++ bad :: later) = ok
       ∧ drop_while acceptable (ok ++ bad :: later) = bad :: later).
Proof.
  destruct (drop_while acceptable q) as [|bad later] eqn:Hd.
  - left. by destruct (drop_while_nil _ _ Hd).
  - right. destruct (drop_while_cons _ _ _ _ Hd) as [Hq Hbad].
    exists (take_while acceptable q), bad, later.
    by rewrite <- Hq.
Qed.

Lemma processQueue_drained (fuel : nat) (s : State) :
  length (iceCandidateQueue s) ≤ fuel → processQueue fuel s = drained s.
Proof.
  revert s. induction fuel as [|fuel IH]; intros s Hlen.
  - destruct s as [? ? pc ? q ? ? ? ?]. simpl in Hlen.
    destruct q; [|simpl in Hlen; lia].
    destruct pc as [[st ld [d|] snd dc rc]|]; try done.
    unfold drained. cbn. by rewrite app_nil_r.
  - destruct s as [id ls pc ini q dis req msgs out]. simpl in Hlen.
    destruct q as [|c rest].
    { destruct pc as [[st ld [d|] snd dc rc]|]; try done.
      unfold drained. cbn. by rewrite app_nil_r. }
    destruct pc as [[st ld [d|] snd dc rc]|]; [|done|done].
    cbn. unfold_M. cbn. destruct (acceptable c) eqn:Hc.
    + cbn. rewrite IH by (simpl in *; lia).
      unfold drained. simpl. rewrite ?Hc.
      destruct (drop_while acceptable rest); simpl;
        unfold with_remoteCandidates; simpl; by rewrite <- app_assoc.
    + unfold drained. simpl. rewrite ?Hc. simpl. by rewrite app_nil_r.
Qed.

(** The loop needs no more rounds than the queue is long: more fuel gives
    the same result. *)
Lemma drainQueue_drained (s : State) : drainQueue s = drained s.
Proof. unfold drainQueue. unfold_M. by apply processQueue_drained. Qed.

Lemma forEach_tracks (f : string → M unit) (line : string → string)
    (tracks : list string) :
  (∀ kind s pc,
     peerConnection s = Some pc → signalingState pc ≠ closed →
     f kind s = (Return tt, tracks_added line [kind] pc s)) →
  ∀ s pc,
    peerConnection s = Some pc → signalingState pc ≠ closed →
    forEach tracks f s = (Return tt, tracks_added line tracks pc s).
Proof.
  intros Hf. induction tracks as [|kind tracks IH]; intros s pc Hpc Hst.
  - destruct s, pc. simpl in *. subst. unfold tracks_added. cbn.
    by rewrite !app_nil_r.
  - cbn. unfold_M. rewrite (Hf kind s pc Hpc Hst).
    rewrite (IH _ (with_senders (senders pc ++ [kind]) pc)); [|done|done].
    unfold tracks_added. destruct s, pc. cbn. by rewrite <- !app_assoc.
Qed.

End ClientLoops.

(** The two shapes of a queue: accepted as a whole, or with a first
    refused candidate. *)
Ltac split_queue q :=
  let ok := fresh "ok" in
  let bad := fresh "bad" in
  let later := fresh "later" in
  destruct (queue_cases q) as [[? ?]|(ok & bad & later & -> & ? & ? & ?)].

(** Running a handler on a state whose fields are spelled out; where the
    run comes to the queue loop, the two shapes of the queue are told
    apart. *)
Ltac exec :=
  repeat first
    [ progress (unfold_M; cbn)
    | rewrite drainQueue_drained; unfold Client.drained, Client.unqueued
    | match goal with
      | H : drop_while _ _ = _ |- _ => rewrite H
      | H : take_while _ _ = _ |- _ => rewrite H
      | H : RTC.acceptable _ = _ |- _ => rewrite H
      end
    | match goal with
      | |- context [match drop_while RTC.acceptable ?q with _ => _ end] =>
          split_queue q
      end
    | case_decide; [ try (exfalso; congruence) | try (exfalso; naive_solver) ]
    | progress unfold Client.createPeerConnection, Client.createAndSendOffer,
        Client.handleOffer, Client.handleAnswer, Client.handleIceCandidate,
        Client.getTracks, Client.on_start_call, Client.check_getUserMedia,
        Client.on_start_click, Client.on_start_click_begin,
        Client.on_start_click_resume,
        Client.on_offer, Client.on_answer, Client.on_ice_candidate,
        Client.dispatch ].

Ltac track_loop line tracks :=
  erewrite (forEach_tracks _ line tracks);
  [ | intros ? [] [[] ? ? ? ? ?] ? ?; simplify_eq/=; done
    | reflexivity | done ].

(** The candidates a step leaves out of the pool: none, or one the browser
    has refused. *)
Ltac lose :=
  first
    [ exists []; split_and!;
      [ rewrite ?app_nil_r, <- ?app_assoc; simpl; solve_Permutation
      | constructor
      | by left ]
    | match goal with
      | H : Client.refused ?c |- _ =>
          exists [c]; split_and!;
          [ rewrite ?app_nil_r, <- ?app_assoc; simpl; solve_Permutation
          | by repeat constructor
          | right; rewrite last_app; simpl; eexists; reflexivity ]
      end ].

Ltac close :=
  split_and?; try done;
  try (intros;
       repeat match goal with
              | H : ?a = ?a → _ |- _ => specialize (H eq_refl)
              end;
       simplify_eq/=; rewrite ?app_nil_r, <- ?app_assoc; done);
  try (intros; exfalso; congruence);
  try lose.

(** * The client: what every step keeps *)
Section ClientSteps.

Import RTC Client.

Ltac open_state s :=
  unfold kept, accounts_for, role_consistent, pool, applied,
    remote_description_set, negotiation_state, step, candidates_of;
  destruct s as [id ls pc ini q dis req msgs out].

Lemma kept_start_click media s : kept s (StartClick media).
Proof.
  open_state s. exec. destruct dis; exec; [close|].
  destruct media; exec; close.
Qed.

Lemma kept_start_click_pending supported s :
  kept s (StartClickPending supported).
Proof.
  open_state s. exec. destruct dis; exec; [close|].
  destruct supported; exec; close.
Qed.

Lemma kept_media_settled media s : kept s (MediaSettled media).
Proof.
  open_state s. exec. destruct req; exec; [close|].
  destruct media; exec; close.
Qed.

Lemma kept_start_call data s : kept s (StartCall data).
Proof.
  open_state s. exec.
  destruct pc as [pc|]; exec; [close|].
  destruct ls as [tracks|]; exec; [|close].
  destruct data as [[who]|]; exec; try solve [close].
  track_loop (λ kind, "📤 Added local " +:+ kind +:+ " track to peer connection") tracks.
  exec. close.
Qed.

Lemma kept_offer data s : kept s (Offer data).
Proof.
  open_state s. destruct data as [[ty txt]]. exec.
  destruct pc as [[st ld rd snd dc rc]|]; [destruct ini|]; exec.
  - close.
  - destruct st, ty, rd; exec; close.
  - destruct ls as [tracks|]; exec; [|close].
    track_loop (λ kind, "📤 Added local " +:+ kind +:+ " track") tracks.
    exec. destruct ty; exec; close.
Qed.

Lemma kept_answer data s : kept s (Answer data).
Proof.
  open_state s. destruct data as [[ty txt]]. exec.
  destruct pc as [[st ld rd snd dc rc]|]; [|exec; close].
  destruct st, ty, rd; exec; close.
Qed.

Lemma kept_ice_candidate data s : kept s (IceCandidate data).
Proof.
  open_state s. destruct data as [c].
  destruct pc as [[st ld rd snd dc rc]|];
    [destruct rd; [destruct (acceptable c) eqn:Hc;
                   [|assert (refused c) by done]|]|];
    exec; close.
Qed.

Lemma step_kept s e : kept s e.
Proof.
  destruct e; auto using kept_start_click, kept_start_call, kept_offer,
    kept_answer, kept_ice_candidate, kept_start_click_pending,
    kept_media_settled.
Qed.

End ClientSteps.

(** * The client: the candidate queue and the guards *)
Section ClientClaims.

Import RTC Client.

Implicit Types (s : State) (e : event) (tr : list event) (id : string).

Lemma reachable_invariants id s : reachable id s → role_consistent s.
Proof.
  induction 1 as [|s e _ IH]; [done|].
  destruct (step_kept s e) as (H1 & _). auto.
Qed.

Lemma reachable_run id tr s : reachable id s → reachable id (run tr s).
Proof.
  revert s. induction tr as [|e tr IH]; intros s Hs; [done|].
  apply IH. by constructor.
Qed.

Lemma candidates_of_cons e tr :
  candidates_of (e :: tr) = candidates_of [e] ++ candidates_of tr.
Proof. unfold candidates_of. simpl. by destruct e. Qed.

(** With the handlers run one after the other, the pool and the
    candidates the browser has refused are the pool at the start and the
    candidates received since. *)
Lemma run_pool tr s :
  ∃ lost, pool (run tr s) ++ lost ≡ₚ pool s ++ candidates_of tr
          ∧ Forall refused lost.
Proof.
  revert s. induction tr as [|e tr IH]; intros s.
  - exists []. split; [|constructor].
    unfold candidates_of. simpl. by rewrite !app_nil_r.
  - destruct (step_kept s e) as (_ & _ & lost1 & H1 & F1 & _).
    destruct (IH (step s e)) as (lost2 & H2 & F2).
    exists (lost2 ++ lost1). split; [|by apply Forall_app].
    change (run (e :: tr) s) with (run tr (step s e)).
    rewrite (candidates_of_cons e tr), !app_assoc, H2, <- H1.
    solve_Permutation.
Qed.

(** A candidate that comes while no remote description is in place goes
    to the end of the queue; nothing else but the log changes. *)
Lemma candidate_queued s c :
  remote_description_set s = false →
  ∃ line,
    dispatch (IceCandidate {| candidate := c |}) s
    = (Return tt,
       set_messages (messages s ++ [line])
         (set_iceCandidateQueue (iceCandidateQueue s ++ [c]) s)).
Proof.
  unfold remote_description_set.
  destruct s as [id ls pc ini q dis req msgs out].
  destruct pc as [[st ld rd snd dc rc]|]; [destruct rd|]; exec; intros;
    try done; eauto.
Qed.

Lemma candidates_queued cs s :
  remote_description_set s = false →
  let s1 := run (candidate_events cs) s in
  iceCandidateQueue s1 = iceCandidateQueue s ++ cs
  ∧ peerConnection s1 = peerConnection s
  ∧ isInitiator s1 = isInitiator s
  ∧ sent s1 = sent s.
Proof.
  revert s. induction cs as [|c cs IH]; intros s Hs; simpl.
  - by rewrite app_nil_r.
  - destruct (candidate_queued s c Hs) as [line Hstep].
    unfold step at 1 2 3 4. rewrite Hstep. simpl.
    destruct (IH (set_messages (messages s ++ [line])
                    (set_iceCandidateQueue (iceCandidateQueue s ++ [c]) s)))
      as (H1 & H2 & H3 & H4); [done|].
    rewrite H1, H2, H3, H4. simpl. by rewrite <- app_assoc.
Qed.

(** C2, as stated, fails. Three candidates reach the initiator before
    the answer; the browser refuses the second. When the answer puts the
    remote description in place, the loop applies the first, stops at the
    second and leaves the third in the queue: the apply order is not C1, C2,
    C3 and the buffer is not empty afterwards. On the answering page the
    same refusal also keeps the answer from being sent. *)
Lemma refused_candidate_stops_drain :
  let c1 := {| cand := "C1"; cand_type := "host"; acceptable := true |} in
  let c2 := {| cand := "C2"; cand_type := "srflx"; acceptable := false |} in
  let c3 := {| cand := "C3"; cand_type := "relay"; acceptable := true |} in
  let a := run [ StartClick (Return ["audio"; "video"]);
                 StartCall (Some {| initiator := "a1" |}) ] (initial "a1") in
  let a1 := run (candidate_events [c1; c2; c3]) a in
  let a2 := step a1 (Answer {| answer := {| sd_type := sdp_answer; sdp := "Y" |} |}) in
  let b := run [ StartClick (Return ["audio"; "video"]) ] (initial "b1") in
  let b1 := run (candidate_events [c1; c2; c3]) b in
  let b2 := step b1 (Offer {| offer := {| sd_type := sdp_offer; sdp := "X" |} |}) in
  (remote_description_set a = false
   ∧ iceCandidateQueue a1 = [c1; c2; c3]
   ∧ remote_description_set a2 = true
   ∧ applied a2 = [c1]
   ∧ iceCandidateQueue a2 = [c3])
  ∧ (remote_description_set b = false
     ∧ iceCandidateQueue b1 = [c1; c2; c3]
     ∧ remote_description_set b2 = true
     ∧ applied b2 = [c1]
     ∧ iceCandidateQueue b2 = [c3]
     ∧ answers_sent b2 = []
     ∧ negotiation_state b2 = Some have_remote_offer).
Proof. vm_compute. done. Qed.

(** C2, amended. Candidates that arrive while no remote description is in
    place (with or without a peer connection) are each appended to the
    queue, in the order of arrival, and none reaches the connection. When
    the offer or answer that follows does put the remote description in
    place, its handler hands the queued candidates to the connection from
    the front, in that order, up to the first one the browser refuses; the
    queue keeps what follows that one. When the browser accepts all of them,
    the connection has taken them in exactly the order received, behind any
    it had taken before, and the queue is empty. *)
Theorem queued_candidates_applied_in_order s (cs : list Candidate) e :
  remote_description_set s = false →
  carries_description e = true →
  let s1 := run (candidate_events cs) s in
  let s2 := step s1 e in
  let buffered := iceCandidateQueue s ++ cs in
  (iceCandidateQueue s1 = buffered ∧ applied s1 = applied s)
  ∧ (remote_description_set s2 = true →
     applied s2 = applied s ++ take_while acceptable buffered
     ∧ iceCandidateQueue s2 = tail (drop_while acceptable buffered)
     ∧ (Forall (λ c, acceptable c = true) buffered →
        applied s2 = applied s ++ buffered ∧ iceCandidateQueue s2 = [])).
Proof.
  intros Hunset He s1 s2 buffered.
  destruct (candidates_queued cs s Hunset) as (Hq & Hpc & _ & _).
  fold s1 in Hq, Hpc. fold buffered in Hq.
  assert (applied s1 = applied s) as Happ by (unfold applied; by rewrite Hpc).
  split; [done|]. intros Hset.
  assert (remote_description_set s1 = false) as Hunset1.
  { unfold remote_description_set in *. by rewrite Hpc. }
  destruct (step_kept s1 e) as (_ & H2 & _).
  destruct (H2 Hunset1 Hset) as [Ha Hb]. fold s2 in Ha, Hb.
  rewrite Hq, Happ in Ha. rewrite Hq in Hb.
  split_and!; [done|done|]. intros Hall.
  destruct (take_while_all _ _ Hall) as [Ht Hd].
  by rewrite Ha, Hb, Ht, Hd.
Qed.

Lemma queued_candidates_applied_in_order_witness :
  let s := run [ StartClick (Return ["audio"; "video"]);
                 StartCall (Some {| initiator := "a1" |}) ] (initial "a1") in
  let cs := [ {| cand := "C1"; cand_type := "host"; acceptable := true |};
              {| cand := "C2"; cand_type := "srflx"; acceptable := true |};
              {| cand := "C3"; cand_type := "relay"; acceptable := true |} ] in
  let e := Answer {| answer := {| sd_type := sdp_answer; sdp := "Y" |} |} in
  iceCandidateQueue (run (candidate_events cs) s) = cs
  ∧ applied (run (candidate_events cs) s) = []
  ∧ applied (step (run (candidate_events cs) s) e) = cs
  ∧ iceCandidateQueue (step (run (candidate_events cs) s) e) = [].
Proof.
  intros s cs e.
  destruct (queued_candidates_applied_in_order s cs e eq_refl eq_refl)
    as [[Hq Ha] Hdrain].
  destruct (Hdrain eq_refl) as (_ & _ & Hall).
  destruct (Hall ltac:(by repeat constructor)) as [Happlied Hempty].
  split_and!; [exact Hq | exact Ha | exact Happlied | exact Hempty].
Defined.

(** A candidate is taken by the connection, put at the end of the queue,
    or refused by the browser and reported in the log; the handler ends
    without an error. *)
Lemma candidate_applied_or_queued s c :
  let r := dispatch (IceCandidate {| candidate := c |}) s in
  r.1 = Return tt
  ∧ ((applied r.2 = applied s ++ [c]
      ∧ iceCandidateQueue r.2 = iceCandidateQueue s)
     ∨ (applied r.2 = applied s
        ∧ iceCandidateQueue r.2 = iceCandidateQueue s ++ [c])
     ∨ (refused c
        ∧ remote_description_set s = true
        ∧ ∃ err,
            r.2 = set_messages
                    (messages s
                     ++ ["❌ Error adding ICE candidate: " +:+ err]) s))
  ∧ (acceptable c = true →
     (applied r.2 = applied s ++ [c]
      ∧ iceCandidateQueue r.2 = iceCandidateQueue s)
     ∨ (applied r.2 = applied s
        ∧ iceCandidateQueue r.2 = iceCandidateQueue s ++ [c]))
  ∧ (peerConnection s = None →
     peerConnection r.2 = None
     ∧ iceCandidateQueue r.2 = iceCandidateQueue s ++ [c]).
Proof.
  unfold applied, remote_description_set, refused.
  destruct s as [id ls pc ini q dis req msgs out].
  destruct pc as [[st ld rd snd dc rc]|]; [destruct rd|]; exec.
  all: try solve [split_and?; try done; auto].
  all: destruct (acceptable c) eqn:Hc; exec;
    split_and?; try done; auto.
  all: right; right; split_and!; try done; by exists "OperationError".
Qed.

(** C9, as stated, fails. A candidate that reaches a page whose remote
    description is in place and that the browser refuses goes to the
    [catch] of [handleIceCandidate]: it is received, it is not handed over
    and it is not in the queue; the log has the error line. *)
Lemma refused_candidate_is_dropped :
  let c := {| cand := "C1"; cand_type := "host"; acceptable := false |} in
  let tr := [ StartClick (Return ["audio"; "video"]);
              Offer {| offer := {| sd_type := sdp_offer; sdp := "X" |} |};
              IceCandidate {| candidate := c |} ] in
  let s := run tr (initial "b1") in
  candidates_of tr = [c]
  ∧ remote_description_set s = true
  ∧ applied s = []
  ∧ iceCandidateQueue s = []
  ∧ (c ∉ applied s ++ iceCandidateQueue s)
  ∧ (∃ err,
       last (messages s) = Some ("❌ Error adding ICE candidate: " +:+ err)).
Proof.
  vm_compute. split_and!; try done; [apply not_elem_of_nil|].
  by exists "OperationError".
Qed.

(** C9, amended. After any sequence of events from the initial page, the
    candidates the connection has taken, those in the queue and some the
    browser has refused are together exactly the candidates received, so a
    candidate the browser accepts is never lost. Every further event keeps
    that account, and a handler that leaves a refused candidate out ends
    with an error line in the log. The handler of a further candidate ends
    without an error and hands the candidate to the connection, or appends
    it to the queue, or, when the browser refuses it, writes the error line
    to the log and changes nothing else; with no peer connection at all it
    appends it to the queue and creates no connection. *)
Theorem no_candidate_is_lost id tr (c : Candidate) :
  let s := run tr (initial id) in
  let r := dispatch (IceCandidate {| candidate := c |}) s in
  (∃ lost, applied s ++ iceCandidateQueue s ++ lost ≡ₚ candidates_of tr
           ∧ Forall refused lost)
  ∧ (∀ x, x ∈ candidates_of tr → acceptable x = true →
          x ∈ applied s ++ iceCandidateQueue s)
  ∧ (∀ e, ∃ lost, accounts_for lost s e)
  ∧ r.1 = Return tt
  ∧ ((applied r.2 = applied s ++ [c]
      ∧ iceCandidateQueue r.2 = iceCandidateQueue s)
     ∨ (applied r.2 = applied s
        ∧ iceCandidateQueue r.2 = iceCandidateQueue s ++ [c])
     ∨ (refused c
        ∧ remote_description_set s = true
        ∧ ∃ err,
            r.2 = set_messages
                    (messages s
                     ++ ["❌ Error adding ICE candidate: " +:+ err]) s))
  ∧ (acceptable c = true →
     (applied r.2 = applied s ++ [c]
      ∧ iceCandidateQueue r.2 = iceCandidateQueue s)
     ∨ (applied r.2 = applied s
        ∧ iceCandidateQueue r.2 = iceCandidateQueue s ++ [c]))
  ∧ (peerConnection s = None →
     peerConnection r.2 = None
     ∧ iceCandidateQueue r.2 = iceCandidateQueue s ++ [c]).
Proof.
  intros s r.
  destruct (run_pool tr (initial id)) as (lost & Hpool & Hlost).
  fold s in Hpool. unfold pool in Hpool. simpl in Hpool.
  rewrite <- app_assoc in Hpool.
  split; [by exists lost|].
  split; [|split; [intros e; apply step_kept
                  |apply candidate_applied_or_queued]].
  intros x Hx Hacc. rewrite <- Hpool in Hx.
  rewrite app_assoc in Hx. apply elem_of_app in Hx as [Hx|Hx]; [done|].
  rewrite Forall_forall in Hlost. specialize (Hlost x Hx).
  unfold refused in Hlost. congruence.
Qed.

Lemma no_candidate_is_lost_witness :
  let c1 := {| cand := "C1"; cand_type := "host"; acceptable := true |} in
  let c2 := {| cand := "C2"; cand_type := ""; acceptable := true |} in
  let s := run [ IceCandidate {| candidate := c1 |} ] (initial "b1") in
  let r := dispatch (IceCandidate {| candidate := c2 |}) s in
  peerConnection r.2 = None ∧ iceCandidateQueue r.2 = [c1; c2].
Proof.
  intros c1 c2 s r.
  destruct (no_candidate_is_lost "b1" [IceCandidate {| candidate := c1 |}] c2)
    as (_ & _ & _ & _ & _ & _ & Hnone).
  exact (Hnone eq_refl).
Defined.

(** C3. In every state the page can reach, an answer that arrives while
    the page is not the initiator, or while the connection is not in
    have-local-offer (or does not exist), changes nothing but the log: the
    handler adds the receipt line and one diagnostic, and the peer
    connection (so its remote description and the candidates it has
    taken), the queue, the role and the messages sent stay as they were. *)
Theorem stray_answer_is_discarded id s (data : AnswerData) :
  reachable id s →
  isInitiator s = false ∨ negotiation_state s ≠ Some have_local_offer →
  let r := dispatch (Answer data) s in
  (∃ diagnostic,
     r = (Return tt,
          set_messages
            (messages s ++ ["📨 Received answer from peer"; diagnostic]) s))
  ∧ peerConnection r.2 = peerConnection s
  ∧ iceCandidateQueue r.2 = iceCandidateQueue s
  ∧ isInitiator r.2 = isInitiator s
  ∧ sent r.2 = sent s.
Proof.
  intros Hreach Hcase r.
  assert (negotiation_state s ≠ Some have_local_offer) as Hst.
  { destruct Hcase as [Hrole|?]; [|done].
    pose proof (reachable_invariants id s Hreach) as Hinv.
    intros Hlo. specialize (Hinv Hlo). congruence. }
  assert (∃ diagnostic,
     r = (Return tt,
          set_messages
            (messages s ++ ["📨 Received answer from peer"; diagnostic]) s))
    as [diagnostic Hr].
  { subst r. clear Hreach Hcase. unfold negotiation_state in Hst.
    destruct s as [i ls pc ini q dis req msgs out].
    destruct pc as [[st ld rd snd dc rc]|]; [destruct st|]; exec;
      try done; rewrite <- app_assoc; eauto. }
  split; [eauto|]. by rewrite Hr.
Qed.

Lemma stray_answer_is_discarded_witness :
  let s := run [ StartClick (Return ["audio"; "video"]);
                 StartCall (Some {| initiator := "a1" |});
                 IceCandidate {| candidate :=
                   {| cand := "C1"; cand_type := ""; acceptable := true |} |} ]
             (initial "b1") in
  let r := dispatch (Answer {| answer := {| sd_type := sdp_answer; sdp := "Y" |} |}) s in
  peerConnection r.2 = None
  ∧ iceCandidateQueue r.2
    = [ {| cand := "C1"; cand_type := ""; acceptable := true |} ].
Proof.
  intros s r.
  assert (reachable "b1" s) as Hreach.
  { subst s. cbv [run foldl]. repeat apply reachable_step.
    apply reachable_initial. }
  destruct (stray_answer_is_discarded "b1" s
              {| answer := {| sd_type := sdp_answer; sdp := "Y" |} |}
              Hreach (or_introl eq_refl))
    as (_ & Hpc & Hq & _).
  split; [exact Hpc | exact Hq].
Defined.

(** C7, as stated, fails. A page whose user has started the camera but
    which has received no start-call is in AwaitingPeer, not Answering;
    an offer that reaches it (the relay sends offers to every other
    participant) is not ignored: the page creates a peer connection, applies
    the offer and sends an answer. *)
Lemma offer_before_start_call_is_answered :
  let tr := [ StartClick (Return ["audio"; "video"]) ] in
  let s := run tr (initial "c1") in
  let data := {| offer := {| sd_type := sdp_offer; sdp := "X" |} |} in
  spec_phase "c1" tr = AwaitingPeer
  ∧ spec_phase "c1" tr ≠ Answering
  ∧ peerConnection s = None
  ∧ answers_sent (step s (Offer data))
    = [ EmitAnswer {| sd_type := sdp_answer; sdp := "m=audio;m=video;" |} ]
  ∧ negotiation_state (step s (Offer data)) = Some stable
  ∧ remote_description_set (step s (Offer data)) = true.
Proof. vm_compute. done. Qed.

(** C7, amended. An incoming offer is ignored when a peer connection
    already exists and the local role is initiator, the one guard the
    handler has: the handler then only logs the receipt and the refusal, no
    answer is sent, and the connection, the queue and the role are
    unchanged. *)
Theorem offer_to_initiator_is_ignored s (data : OfferData) :
  is_Some (peerConnection s) →
  isInitiator s = true →
  let r := dispatch (Offer data) s in
  r = (Return tt,
       set_messages
         (messages s ++ [ "📨 Received offer from peer";
                          "⚠️ Ignoring offer - already initiated connection" ]) s)
  ∧ answers_sent r.2 = answers_sent s
  ∧ peerConnection r.2 = peerConnection s
  ∧ iceCandidateQueue r.2 = iceCandidateQueue s
  ∧ isInitiator r.2 = true.
Proof.
  intros [pc Hpc] Hini r.
  assert (r = (Return tt,
       set_messages
         (messages s ++ [ "📨 Received offer from peer";
                          "⚠️ Ignoring offer - already initiated connection" ]) s))
    as Hr.
  { subst r. destruct s as [i ls pc' ini q dis req msgs out]. simpl in *. subst.
    exec. by rewrite <- app_assoc. }
  rewrite Hr. by destruct s.
Qed.

Lemma offer_to_initiator_is_ignored_witness :
  let s := run [ StartClick (Return ["audio"; "video"]);
                 StartCall (Some {| initiator := "a1" |}) ] (initial "a1") in
  let r := dispatch (Offer {| offer := {| sd_type := sdp_offer; sdp := "X" |} |}) s in
  answers_sent r.2 = [] ∧ negotiation_state r.2 = Some have_local_offer.
Proof.
  intros s r.
  destruct (offer_to_initiator_is_ignored s
              {| offer := {| sd_type := sdp_offer; sdp := "X" |} |}
              (mk_is_Some _ _ eq_refl) eq_refl)
    as (_ & Hans & Hpc & _).
  split; [exact Hans|].
  exact (f_equal (fmap signalingState) Hpc).
Defined.

(** An offer that reaches a page whose camera was never started gets past
    the guard; [handleOffer] creates the connection and then fails on
    [localStream.getTracks()], outside its [try]: no answer is sent, the
    connection stays. *)
Example offer_without_stream_throws :
  let r := dispatch (Offer {| offer := {| sd_type := sdp_offer; sdp := "X" |} |})
             (initial "c1") in
  r.1 = Throw "TypeError"
  ∧ peerConnection r.2 = Some RTC.new
  ∧ sent r.2 = [].
Proof. vm_compute. done. Qed.

(** The scenario of the specification on the two pages: three candidates
    each, arriving before, during and after the negotiation; both end with
    all three applied in order and nothing left in the queue. *)
Example both_pages_end_with_empty_queue :
  let c (n : string) :=
    {| cand := n; cand_type := "host"; acceptable := true |} in
  let ice (n : string) := IceCandidate {| candidate := c n |} in
  let a := run [ StartClick (Return ["audio"; "video"]);
                 StartCall (Some {| initiator := "a1" |});
                 ice "B1"; ice "B2";
                 Answer {| answer := {| sd_type := sdp_answer; sdp := "Y" |} |};
                 ice "B3" ] (initial "a1") in
  let b := run [ ice "A1";
                 StartClick (Return ["audio"; "video"]);
                 StartCall (Some {| initiator := "a1" |});
                 ice "A2";
                 Offer {| offer := {| sd_type := sdp_offer; sdp := "X" |} |};
                 ice "A3" ] (initial "b1") in
  (applied a = [c "B1"; c "B2"; c "B3"] ∧ iceCandidateQueue a = []
   ∧ negotiation_state a = Some stable ∧ isInitiator a = true)
  ∧ (applied b = [c "A1"; c "A2"; c "A3"] ∧ iceCandidateQueue b = []
     ∧ negotiation_state b = Some stable ∧ isInitiator b = false
     ∧ answers_sent b
       = [ EmitAnswer {| sd_type := sdp_answer; sdp := "m=audio;m=video;" |} ]).
Proof. vm_compute. done. Qed.

End ClientClaims.

(** * More on the server: pairing, counts, departures *)
Section ServerMore.

Import Server ServerRun.

Implicit Types (s : State) (e : event) (tr : list event) (id a b q : string).

Lemma reachable_ready_connected s id :
  reachable s → id ∈ readyClients s → id ∈ dom (clients s).
Proof.
  intros Hreach. revert id.
  induction Hreach as [|e s _ IH Hen]; intros id Hid.
  - by apply elem_of_nil in Hid.
  - destruct e as [c|r|p d|p d|p d|x]; simpl in *; try by apply IH.
    + rewrite dom_insert_L. set_solver.
    + rewrite on_ready_state in *. simpl in *.
      apply JSSet_elem_of_add in Hid as [->|Hid]; [|by apply IH].
      apply bool_decide_eq_true_1 in Hen. by apply elem_of_dom.
    + rewrite dom_delete_L. apply JSSet_elem_of_delete in Hid as [Hne Hid].
      specialize (IH _ Hid). set_solver.
Qed.

(** X1. In every state the server can reach, the number of ready
    participants is at most the number of connected ones: a ready-count
    broadcast never exceeds the user-count. *)
Theorem ready_count_at_most_user_count s :
  reachable s → JSSet.size (readyClients s) ≤ size (clients s).
Proof.
  intros Hreach. unfold JSSet.size.
  rewrite <- (size_dom (D := gset string)).
  rewrite <- (size_list_to_set (C := gset string) (readyClients s))
    by by apply reachable_NoDup.
  apply subseteq_size. intros x Hx. apply elem_of_list_to_set in Hx.
  by apply reachable_ready_connected.
Qed.

Lemma ready_count_at_most_user_count_witness :
  let s := (handle (Disconnect "a1")
              (handle (Ready "b1")
                 (handle (Ready "a1")
                    (handle (Connection "b1")
                       (handle (Connection "a1") initial).1).1).1).1).1 in
  JSSet.size (readyClients s) ≤ size (clients s).
Proof.
  intros s. apply (ready_count_at_most_user_count s).
  subst s. repeat (apply reachable_step; [|reflexivity]).
  apply reachable_initial.
Defined.

(** X2. Whenever a ready signal makes the server send start-call, the ready
    set consists of two different participants, the start-call names the
    first of them, and both of them are connected and receive it. *)
Theorem start_call_reaches_both s id :
  reachable s →
  enabled (Ready id) s = true →
  let after := on_ready id s in
  start_calls after.2 ≠ [] →
  ∃ a b,
    readyClients after.1 = [a; b]
    ∧ a ≠ b
    ∧ start_calls after.2 = [ IoEmit "start-call" (StartCall (Some a)) ]
    ∧ received_by a after.1 (start_calls after.2)
      = [ ("start-call", StartCall (Some a)) ]
    ∧ received_by b after.1 (start_calls after.2)
      = [ ("start-call", StartCall (Some a)) ].
Proof.
  intros Hreach Hen after Hsome.
  assert (reachable after.1) as Hafter.
  { by apply (reachable_step (Ready id)). }
  pose proof (reachable_NoDup _ Hafter) as Hnd.
  subst after. rewrite on_ready_start_calls in *.
  rewrite on_ready_state in *. simpl in *.
  case_decide as Hlen; [|done].
  destruct (JSSet.add id (readyClients s)) as [|a [|b [|? ?]]] eqn:Hadd;
    try done.
  exists a, b. simpl.
  apply NoDup_cons in Hnd as [Hab _].
  assert (∀ x, x ∈ [a; b] → x ∈ dom (clients s)) as Hdom.
  { intros x Hx.
    by apply (reachable_ready_connected _ x Hafter). }
  split_and!; try done.
  - set_solver.
  - rewrite received_by_io. simpl. rewrite decide_True; [done|].
    apply Hdom. set_solver.
  - rewrite received_by_io. simpl. rewrite decide_True; [done|].
    apply Hdom. set_solver.
Qed.

Lemma start_call_reaches_both_witness :
  let s := (handle (Ready "a1")
              (handle (Connection "b1")
                 (handle (Connection "a1") initial).1).1).1 in
  ∃ a b,
    readyClients (on_ready "b1" s).1 = [a; b]
    ∧ a ≠ b
    ∧ received_by b (on_ready "b1" s).1 (start_calls (on_ready "b1" s).2)
      = [ ("start-call", StartCall (Some a)) ].
Proof.
  intros s.
  assert (reachable s) as Hreach.
  { subst s. repeat (apply reachable_step; [|reflexivity]).
    apply reachable_initial. }
  destruct (start_call_reaches_both s "b1" Hreach eq_refl)
    as (a & b & Hr & Hab & _ & _ & Hb).
  { by vm_compute. }
  exists a, b. split_and!; [exact Hr | exact Hab | exact Hb].
Defined.

(** X3. No handler but the ready handler sends start-call: over any
    sequence of connections, relayed messages and disconnects, from any
    state, no start-call is sent, also when a disconnect brings the ready set
    down to two. *)
Theorem only_ready_starts_calls tr s :
  no_ready tr = true → start_calls (concat (run tr s).2) = [].
Proof.
  revert s. induction tr as [|e tr IH]; intros s Hq; [done|].
  apply andb_prop in Hq as [He Hq].
  rewrite run_cons. simpl. rewrite start_calls_app, (IH _ Hq), app_nil_r.
  by destruct e.
Qed.

Lemma only_ready_starts_calls_witness :
  let s := (run [ Connection "a1"; Connection "b1"; Connection "c1";
                  Ready "a1"; Ready "b1"; Ready "c1" ] initial).1 in
  let tr := [ Disconnect "a1"; Offer "b1" {| offer := "X" |};
              Connection "d1" ] in
  JSSet.size (readyClients (run tr s).1) = 2
  ∧ start_calls (concat (run tr s).2) = [].
Proof.
  intros s tr. split; [reflexivity|].
  exact (only_ready_starts_calls tr s eq_refl).
Defined.

(** X4. A participant that connects with a fresh id, signals ready, has
    messages relayed and then disconnects leaves the registry exactly as it
    was before it came. *)
Theorem visit_leaves_no_trace s id (relayed : list event) :
  clients s !! id = None →
  id ∉ readyClients s →
  Forall (λ e, is_ready_event e = false ∧ is_disconnect e = false
               ∧ ServerRun.is_connection e = false) relayed →
  (run (Connection id :: Ready id :: relayed ++ [Disconnect id]) s).1 = s.
Proof.
  intros Hfresh Hnot Hrel.
  assert (∀ s', (run relayed s').1 = s') as Hsame.
  { induction Hrel as [|e tr (H1 & H2 & H3) _ IH]; intros s'; [done|].
    rewrite run_cons. simpl. destruct e; try done; simpl; apply IH. }
  rewrite !run_cons. simpl. rewrite run_app_state, Hsame, run_cons. simpl.
  rewrite on_ready_state. simpl. unfold on_disconnect. simpl.
  rewrite JSSet_add_new by done.
  rewrite delete_insert_id by done.
  unfold JSSet.delete. rewrite filter_app, filter_cons_False, filter_nil, app_nil_r by naive_solver.
  change (filter (λ y, y ≠ id) (readyClients s)) with (JSSet.delete id (readyClients s)).
  rewrite JSSet_delete_absent by done. by destruct s.
Qed.

Lemma valid_counts tr s :
  valid tr s = true →
  size (clients (run tr s).1) + disconnects tr
  = size (clients s) + connections tr.
Proof.
  unfold connections, disconnects.
  revert s. induction tr as [|e tr IH]; intros s Hv; [simpl; lia|].
  simpl in Hv. apply andb_prop in Hv as [He Hv].
  rewrite run_cons. simpl. specialize (IH _ Hv).
  destruct e as [c|r|p d|p d|p d|x]; simpl in *;
    rewrite ?filter_cons_True, ?filter_cons_False by done; simpl;
    rewrite ?on_ready_state in *; simpl in *; try lia.
  - apply bool_decide_eq_true_1 in He.
    rewrite map_size_insert_None in IH by done. lia.
  - apply bool_decide_eq_true_1 in He.
    rewrite map_size_delete_Some in IH by done.
    assert (size (clients s) ≠ 0).
    { apply map_size_non_empty_iff. intros Hm. rewrite Hm in He.
      destruct He as [? He]. by rewrite lookup_empty in He. }
    lia.
Qed.

Lemma visit_leaves_no_trace_witness :
  let s := (run [Connection "a1"; Ready "a1"] initial).1 in
  (run (Connection "b1" :: Ready "b1"
        :: [Offer "b1" {| offer := "X" |}] ++ [Disconnect "b1"]) s).1 = s.
Proof.
  intros s. apply (visit_leaves_no_trace s "b1").
  - reflexivity.
  - by apply (bool_decide_eq_false_1 ("b1" ∈ readyClients s)).
  - repeat constructor.
Defined.

(** X5. In every run socket.io can deliver from the start of the server,
    the clients map holds as many entries as there were connections minus
    disconnects, and the user-count broadcast by a connection or a disconnect
    carries exactly that number; no other handler broadcasts a user-count. *)
Theorem user_count_is_accurate tr e :
  valid (tr ++ [e]) initial = true →
  let n := connections (tr ++ [e]) - disconnects (tr ++ [e]) in
  size (clients (run (tr ++ [e]) initial).1) = n
  ∧ disconnects (tr ++ [e]) ≤ connections (tr ++ [e])
  ∧ user_counts (handle e (run tr initial).1).2
    = if is_connection e || is_disconnect e then [n] else [].
Proof.
  intros Hv n. pose proof (valid_counts _ _ Hv) as Hc.
  change (size (clients initial)) with 0 in Hc.
  assert (size (clients (run (tr ++ [e]) initial).1) = n) as Hn by (subst n; lia).
  split_and!; [done|lia|].
  rewrite <- Hn, run_app_state, run_cons. simpl.
  destruct e as [c|r|p d|p d|p d|x]; try done. simpl.
  unfold on_ready. by repeat case_decide.
Qed.

Lemma user_count_is_accurate_witness :
  let tr := [Connection "a1"; Connection "b1"; Ready "a1"; Disconnect "a1"] in
  user_counts (handle (Connection "c1") (run tr initial).1).2 = [2].
Proof.
  intros tr.
  destruct (user_count_is_accurate tr (Connection "c1") eq_refl)
    as (_ & _ & Hcount).
  exact Hcount.
Defined.

End ServerMore.

(** * TURN credentials *)
Section TurnFacts.

Import Turn.


(** X7. Whatever Twilio answers, after the page has loaded the endpoint's
    reply [configuration.iceServers] is Twilio's list when Twilio's data
    carried [ice_servers] (an empty list included) and is unchanged otherwise;
    the page logs the loaded line in the first case only, and a 500 from the
    endpoint passes without any line. The warning line is logged only when
    the page's own fetch fails, and the servers are unchanged then too. *)
Theorem page_servers_after_load (base64 : string → string) (fetch : Fetch)
    (sid tok : option string) (p : Loader) :
  let reply := (turn_credentials base64 fetch sid tok).1 in
  let p' := loadTurnCredentials (Return (body reply)) p in
  match getTwilioTurnCredentials base64 fetch sid tok with
  | Return (Some servers) =>
      status reply = 200
      ∧ p' = {| configuration_iceServers := servers;
                messages := messages p ++ ["✅ Loaded Twilio TURN servers"] |}
  | Return None => status reply = 200 ∧ p' = p
  | Throw _ => status reply = 500 ∧ p' = p
  end
  ∧ (∀ e, configuration_iceServers (loadTurnCredentials (Throw e) p)
          = configuration_iceServers p
          ∧ messages (loadTurnCredentials (Throw e) p)
            = messages p ++ ["⚠️ Using default STUN servers only"]).
Proof.
  intros reply p'. subst reply p'.
  unfold turn_credentials, getTwilioTurnCredentials.
  split; [|done].
  by destruct (fetch _) as [[[servers|]]|e].
Qed.

End TurnFacts.

(** * The media side *)
Section MediaFacts.

Import Media.

Implicit Types (v : View) (t : Track) (stream : list Track).

Lemma stream_addTrack_spec t stream :
  (∀ x, x ∈ stream_addTrack t stream → x ∈ stream ∨ x = t)
  ∧ (∀ x, x ∈ stream → x ∈ stream_addTrack t stream)
  ∧ track_id t ∈ map track_id (stream_addTrack t stream)
  ∧ stream_addTrack t stream ≠ [].
Proof.
  unfold stream_addTrack. case_bool_decide as Hin.
  - split_and!; [auto|auto|done|]. intros ->. by apply elem_of_nil in Hin.
  - split_and!.
    + intros x Hx. apply elem_of_app in Hx as [?|Hx]; [auto|]. set_solver.
    + set_solver.
    + rewrite map_app. set_solver.
    + by destruct stream.
Qed.

Lemma collect_spec (receivers : list (option Track)) stream v :
  let r := foldl collect (stream, v) receivers in
  remoteVideo_srcObject r.2 = remoteVideo_srcObject v
  ∧ localStream r.2 = localStream v
  ∧ isAudioMuted r.2 = isAudioMuted v
  ∧ (∀ x, x ∈ r.1 → x ∈ stream ∨ Some x ∈ receivers)
  ∧ (∀ x, x ∈ stream → x ∈ r.1)
  ∧ (∀ x, Some x ∈ receivers → track_id x ∈ map track_id r.1)
  ∧ (r.1 = [] ↔ stream = [] ∧ receiver_tracks receivers = []).
Proof.
  revert stream v. induction receivers as [|o receivers IH]; intros stream v.
  - simpl. split_and!; try done; [auto|set_solver|naive_solver].
  - simpl. destruct o as [t|]; simpl.
    + destruct (IH (stream_addTrack t stream)
                  (logMessage ("🔧 Manually added " +:+ kind t
                               +:+ " track to remote stream") v))
        as (H1 & H2 & H3 & H4 & H5 & H6 & H7).
      destruct (stream_addTrack_spec t stream) as (A1 & A2 & A3 & A4).
      split_and!; try done.
      * intros x Hx. destruct (H4 x Hx) as [Hs|?]; [|set_solver].
        destruct (A1 x Hs) as [? | ->]; set_solver.
      * auto.
      * intros x Hx. apply elem_of_cons in Hx as [Hx|Hx]; [|auto].
        simplify_eq. apply list_elem_of_fmap in A3 as (y & Hy & Hin).
        apply list_elem_of_fmap. exists y. split; [done|]. by apply H5.
      * unfold receiver_tracks in *. simpl. rewrite H7. naive_solver.
    + destruct (IH stream v) as (H1 & H2 & H3 & H4 & H5 & H6 & H7).
      split_and!; try done.
      * intros x Hx. destruct (H4 x Hx); set_solver.
      * intros x Hx. apply elem_of_cons in Hx as [Hx|Hx]; [done|auto].
Qed.

(** X8. After a connection state change the remote video has a stream
    exactly when it had one before, or the state is connected and some
    receiver has a track. A stream already attached is left as it is; a
    stream the fallback attaches consists of receivers' tracks only and
    holds the track of every receiver that has one. The local stream and the
    mute flag are not touched. *)
Theorem fallback_attaches_remote_stream (connectionState : string) (n : nat)
    (receivers : list (option Track)) v :
  let v' := onconnectionstatechange connectionState n receivers v in
  (is_Some (remoteVideo_srcObject v')
   ↔ is_Some (remoteVideo_srcObject v)
     ∨ (connectionState = "connected" ∧ receiver_tracks receivers ≠ []))
  ∧ (is_Some (remoteVideo_srcObject v) →
     remoteVideo_srcObject v' = remoteVideo_srcObject v)
  ∧ (∀ stream,
       remoteVideo_srcObject v = None →
       remoteVideo_srcObject v' = Some stream →
       (∀ t, t ∈ stream → Some t ∈ receivers)
       ∧ (∀ t, Some t ∈ receivers → track_id t ∈ map track_id stream))
  ∧ localStream v' = localStream v
  ∧ isAudioMuted v' = isAudioMuted v.
Proof.
  intros v'. subst v'. unfold onconnectionstatechange.
  case_bool_decide as Hst; simpl; [|naive_solver].
  destruct (remoteVideo_srcObject v) as [old|] eqn:Hold.
  { case_bool_decide; simpl; split_and!; naive_solver. }
  case_bool_decide as Hlen; simpl.
  2:{ assert (receivers = []) as -> by (destruct receivers; simpl in *; [done|lia]).
      rewrite ?Hold. split_and!; try done. unfold receiver_tracks. simpl.
      split; [by intros []|]. intros [[]|[_ ?]]; done. }
  set (v2 := logMessage _ (updateStatus _ _ (logMessage _ v))).
  pose proof (collect_spec receivers [] v2) as Hc. simpl in Hc.
  destruct (foldl collect ([], v2) receivers) as [remoteStream v3].
  simpl in Hc. destruct Hc as (H1 & H2 & H3 & H4 & H5 & H6 & H7).
  case_bool_decide as Hne; simpl.
  - split_and!; try done.
    + split; [intros _; right|by eauto]. split; [done|].
      intros Hn. assert (remoteStream = []) as -> by naive_solver.
      simpl in Hne. lia.
    + intros stream _ [= <-]. split; [|done].
      intros t Ht. destruct (H4 t Ht) as [Hn|?]; [|done].
      by apply elem_of_nil in Hn.
  - assert (remoteStream = []) as -> by (destruct remoteStream; simpl in *; [done|lia]).
    rewrite H1. subst v2. simpl. rewrite Hold.
    split_and!; try done.
    split; [by intros []|]. intros [[]|[_ Hn]]; [done|]. naive_solver.
Qed.

Lemma fallback_attaches_remote_stream_witness :
  let cam := {| track_id := "r1"; kind := "video"; enabled := true |} in
  let v := {| localStream := None; remoteVideo_srcObject := None;
              status := None; isAudioMuted := false;
              muteAudioBtn_textContent := ""; muteAudioBtn_background := "";
              messages := [] |} in
  is_Some (remoteVideo_srcObject
             (onconnectionstatechange "connected" 2 [None; Some cam] v))
  ∧ ¬ is_Some (remoteVideo_srcObject
                 (onconnectionstatechange "connecting" 2 [None; Some cam] v)).
Proof.
  intros cam v.
  destruct (fallback_attaches_remote_stream "connected" 2 [None; Some cam] v)
    as (Hyes & _).
  destruct (fallback_attaches_remote_stream "connecting" 2 [None; Some cam] v)
    as (Hno & _).
  split.
  - apply Hyes. right. split; [reflexivity | discriminate].
  - intros Hs. apply Hno in Hs as [[? Hs]|[Hs _]]; discriminate.
Defined.

Lemma connected_keeps_attached (connectionState : string) (n : nat)
    (receivers : list (option Track)) v :
  is_Some (remoteVideo_srcObject v) →
  remoteVideo_srcObject (onconnectionstatechange connectionState n receivers v)
  = remoteVideo_srcObject v.
Proof.
  intros [old Hold]. unfold onconnectionstatechange.
  case_bool_decide; simpl; [|done]. rewrite Hold. by case_bool_decide.
Qed.

(** X9. When the track event brings a stream, the remote video shows that
    stream after the track event and a connection state change have both
    been handled, in either order: the fallback never replaces it. *)
Theorem primary_stream_wins (event : TrackEvent) (stream : list Track)
    (connectionState : string) (n : nat) (receivers : list (option Track)) v :
  streams event !! 0 = Some stream →
  remoteVideo_srcObject
    (onconnectionstatechange connectionState n receivers (ontrack event v))
  = Some stream
  ∧ remoteVideo_srcObject
      (ontrack event (onconnectionstatechange connectionState n receivers v))
    = Some stream.
Proof.
  intros Hs.
  assert (∀ w, remoteVideo_srcObject (ontrack event w) = Some stream) as Hon.
  { intros w. unfold ontrack. by rewrite Hs. }
  split; [|done]. rewrite connected_keeps_attached; [done|]. by rewrite Hon.
Qed.

Lemma primary_stream_wins_witness :
  let cam := {| track_id := "r1"; kind := "video"; enabled := true |} in
  let other := {| track_id := "r2"; kind := "audio"; enabled := true |} in
  let v := {| localStream := None; remoteVideo_srcObject := None;
              status := None; isAudioMuted := false;
              muteAudioBtn_textContent := ""; muteAudioBtn_background := "";
              messages := [] |} in
  remoteVideo_srcObject
    (onconnectionstatechange "connected" 2 [Some other; Some cam]
       (ontrack {| track := cam; streams := [[cam]] |} v))
  = Some [cam].
Proof.
  intros cam other v.
  exact (proj1 (primary_stream_wins {| track := cam; streams := [[cam]] |}
                  [cam] "connected" 2 [Some other; Some cam] v eq_refl)).
Defined.

Lemma set_first_audio_spec (b : bool) stream :
  getAudioTracks (set_first_audio b stream)
  = match getAudioTracks stream with
    | [] => []
    | t :: rest => with_enabled b t :: rest
    end
  ∧ filter (λ t, kind t ≠ "audio") (set_first_audio b stream)
    = filter (λ t, kind t ≠ "audio") stream
  ∧ map track_id (set_first_audio b stream) = map track_id stream
  ∧ map kind (set_first_audio b stream) = map kind stream.
Proof.
  unfold getAudioTracks. split_and!.
  - induction stream as [|t stream IH]; [done|]. simpl.
    case_bool_decide as Hk.
    + by rewrite !filter_cons_True by done.
    + rewrite !filter_cons_False by done. by rewrite IH.
  - induction stream as [|t stream IH]; [done|]. simpl.
    case_bool_decide as Hk.
    + by rewrite !filter_cons_False by naive_solver.
    + rewrite !filter_cons_True by done. by rewrite IH.
  - induction stream as [|t stream IH]; [done|]. simpl.
    case_bool_decide; simpl; [done|]. by f_equal.
  - induction stream as [|t stream IH]; [done|]. simpl.
    case_bool_decide; simpl; [done|]. by f_equal.
Qed.

Lemma set_first_audio_twice (b c : bool) stream :
  set_first_audio b (set_first_audio c stream) = set_first_audio b stream.
Proof.
  induction stream as [|t stream IH]; [done|]. simpl.
  case_bool_decide as Hk; simpl.
  - by rewrite bool_decide_eq_true_2.
  - rewrite bool_decide_eq_false_2 by done. by rewrite IH.
Qed.

(** X10. With no local stream or no audio track the mute button does
    nothing. Otherwise a click flips the mute flag and sets the first audio
    track's [enabled] to the opposite of the new flag; every other track,
    audio or not, and the order of the tracks stay as they are, and two more
    clicks bring the stream, the flag and the button's text and colour back
    to what they were after the first. *)
Theorem mute_button_toggles_first_audio_track v :
  let v1 := muteAudioBtn_onclick v in
  match audioTrack v with
  | None => v1 = v
  | Some t =>
      isAudioMuted v1 = negb (isAudioMuted v)
      ∧ audioTrack v1 = Some (with_enabled (isAudioMuted v) t)
      ∧ (∃ stream stream1,
           localStream v = Some stream ∧ localStream v1 = Some stream1
           ∧ getAudioTracks stream1
             = with_enabled (isAudioMuted v) t :: drop 1 (getAudioTracks stream)
           ∧ filter (λ x, kind x ≠ "audio") stream1
             = filter (λ x, kind x ≠ "audio") stream
           ∧ map track_id stream1 = map track_id stream)
      ∧ controls (muteAudioBtn_onclick (muteAudioBtn_onclick v1)) = controls v1
  end.
Proof.
  intros v1. subst v1. unfold audioTrack, muteAudioBtn_onclick.
  destruct v as [ls rv st muted txt bg msgs]. simpl.
  destruct ls as [stream|]; simpl; [|done].
  destruct (set_first_audio_spec (negb (negb muted)) stream) as (S1 & S2 & S3 & _).
  destruct (getAudioTracks stream) as [|t rest] eqn:Ha; simpl; [done|].
  rewrite !negb_involutive in *. rewrite S1. simpl.
  split_and!; try done.
  - exists stream, (set_first_audio muted stream). by rewrite S1, Ha, S2, S3.
  - unfold controls. simpl.
    destruct (set_first_audio_spec (negb muted) (set_first_audio muted stream))
      as (T1 & _).
    rewrite S1 in T1. rewrite T1. simpl.
    destruct (set_first_audio_spec muted
                (set_first_audio (negb muted) (set_first_audio muted stream)))
      as (U1 & _).
    rewrite T1 in U1. rewrite ?negb_involutive. rewrite ?U1. simpl.
    rewrite ?negb_involutive, ?set_first_audio_twice. done.
Qed.

End MediaFacts.

(** * More on the page: what it sends and what it never undoes *)
Section ClientMore.

Import RTC Client ClientSent.

Implicit Types (s : State) (e : event) (tr : list event) (id : string).

Ltac open_steady s :=
  unfold steady, one_role, ready_started, ready_once, leaves_request_open,
    offers_sent, answers_sent, readies_sent, applied,
    remote_description_set, names, step;
  destruct s as [id ls pc ini q dis req msgs out].

Ltac sent_lists :=
  rewrite ?filter_app, ?filter_cons, ?filter_nil, ?length_app in *;
  simpl in *;
  repeat (case_decide; try done);
  rewrite ?app_nil_r in *; simpl in *.

Ltac pick :=
  solve [ done | lia | eauto
        | split; pick
        | left; pick
        | right; pick ].

Ltac cases :=
  intros;
  repeat match goal with
         | H : _ ∨ _ |- _ => destruct H
         | H : _ ∧ _ |- _ => destruct H
         | H : filter _ _ = [] |- _ => rewrite H in *; clear H
         | H : length _ = _ |- _ => rewrite H in *; clear H
         end;
  simplify_eq/=.

Ltac settle :=
  split_and?;
  try done;
  try (by apply prefix_app_r);
  try (by apply prefix_nil);
  try (by eauto);
  try (sent_lists; cases; pick).

Lemma steady_start_click media s : steady s (StartClick media).
Proof.
  open_steady s. exec. destruct dis; exec; [settle|].
  destruct media; exec; settle.
Qed.

Lemma steady_start_click_pending supported s :
  steady s (StartClickPending supported).
Proof.
  open_steady s. exec. destruct dis; exec; [settle|].
  destruct supported; exec; settle.
Qed.

Lemma steady_media_settled media s : steady s (MediaSettled media).
Proof.
  open_steady s. exec. destruct req; exec; [settle|].
  destruct media; exec; settle.
Qed.

Lemma steady_start_call data s : steady s (StartCall data).
Proof.
  open_steady s. exec.
  destruct pc as [pc|]; exec; [settle|].
  destruct ls as [tracks|]; exec; [|settle].
  destruct data as [[who]|]; exec; try solve [settle].
  track_loop (λ kind, "📤 Added local " +:+ kind +:+ " track to peer connection") tracks.
  exec. settle.
Qed.

Lemma steady_offer data s : steady s (Offer data).
Proof.
  open_steady s. destruct data as [[ty txt]]. exec.
  destruct pc as [[st ld rd snd dc rc]|]; [destruct ini|]; exec.
  - settle.
  - destruct st, ty, rd; exec; settle.
  - destruct ls as [tracks|]; exec; [|settle].
    track_loop (λ kind, "📤 Added local " +:+ kind +:+ " track") tracks.
    exec. destruct ty; exec; settle.
Qed.

Lemma steady_answer data s : steady s (Answer data).
Proof.
  open_steady s. destruct data as [[ty txt]].
  destruct pc as [[st ld rd snd dc rc]|]; [|exec; settle].
  destruct st, ty, rd; exec; settle.
Qed.

Lemma steady_ice_candidate data s : steady s (IceCandidate data).
Proof.
  open_steady s. destruct data as [c].
  destruct pc as [[st ld rd snd dc rc]|];
    [destruct rd; [destruct (acceptable c) eqn:Hc|]|];
    exec; settle.
Qed.

Lemma step_steady s e : steady s e.
Proof.
  destruct e; auto using steady_start_click, steady_start_call, steady_offer,
    steady_answer, steady_ice_candidate, steady_start_click_pending,
    steady_media_settled.
Qed.

Lemma run_roles tr s : one_role s → one_role (run tr s).
Proof.
  revert s. induction tr as [|e tr IH]; intros s H1; [done|].
  destruct (step_steady s e) as (_ & _ & _ & _ & K1 & _).
  apply IH; auto.
Qed.

Lemma initial_one_role id : one_role (initial id).
Proof. unfold one_role. simpl. auto. Qed.

(** A click whose camera request settles before anything else happens is
    the click and the settling, one after the other. *)
Lemma click_settling_at_once s media :
  startBtn_disabled s = false →
  step (step s (StartClickPending true)) (MediaSettled media)
  = step s (StartClick media).
Proof.
  unfold step. destruct s as [id ls pc ini q dis req msgs out]. simpl.
  intros ->. exec. destruct media; exec; done.
Qed.

(** Two clicks that fall into the same wait for the camera: the handler
    runs twice and ready is sent twice. *)
Example overlapping_clicks_send_ready_twice :
  let s := run [ StartClickPending true; StartClickPending true;
                 MediaSettled (Return ["audio"; "video"]);
                 MediaSettled (Return ["audio"; "video"]) ] (initial "a1") in
  sent s = [EmitReady; EmitReady] ∧ startBtn_disabled s = true.
Proof. vm_compute. done. Qed.

(** X11. A page that has sent ready has a started camera and a disabled
    start button. It has sent ready at most once when no click has left a
    camera request open at the next event; a click on a browser without
    [getUserMedia] and a settled request without a click change nothing. *)
Theorem ready_is_sent_at_most_once id tr :
  let s := run tr (initial id) in
  (readies_sent s ≠ [] →
   startBtn_disabled s = true ∧ is_Some (localStream s))
  ∧ (Forall (λ e, leaves_request_open e = false) tr →
     length (readies_sent s) ≤ 1).
Proof.
  intros s. subst s. split.
  - assert (∀ s, ready_started s → ready_started (run tr s)) as Hgen.
    { induction tr as [|e tr IH]; intros s Hs; [done|].
      destruct (step_steady s e) as (_ & _ & _ & _ & _ & K & _).
      apply IH; auto. }
    intros Hne. destruct (Hgen (initial id)) as [?|?]; [by left|done|done].
  - assert (∀ s, ready_once s →
              Forall (λ e, leaves_request_open e = false) tr →
              ready_once (run tr s)) as Hgen.
    { induction tr as [|e tr IH]; intros s Hs Hall; [done|].
      apply Forall_cons in Hall as [He Hall].
      destruct (step_steady s e) as (_ & _ & _ & _ & _ & _ & K & _).
      apply IH; auto. }
    intros Hall. destruct (Hgen (initial id)) as [_ [H|[H _]]];
      [by split; [|left] | done | | ]; rewrite H; simpl; lia.
Qed.

Lemma ready_is_sent_at_most_once_witness :
  let tr := [ StartClick (Return ["audio"; "video"]);
              StartClick (Return ["audio"]);
              StartClickPending false;
              MediaSettled (Return ["video"]) ] in
  length (readies_sent (run tr (initial "a1"))) ≤ 1.
Proof.
  intros tr.
  destruct (ready_is_sent_at_most_once "a1" tr) as [_ Honce].
  apply Honce. by repeat constructor.
Defined.

(** X12. Whatever events reach a page, it sends at most one offer, it never
    sends both an offer and an answer, a page that has sent an offer is
    initiator and holds a peer connection, and a page that has sent an answer
    holds one. *)
Theorem page_takes_one_role id tr :
  let s := run tr (initial id) in
  length (offers_sent s) ≤ 1
  ∧ (offers_sent s = [] ∨ answers_sent s = [])
  ∧ (offers_sent s ≠ [] → isInitiator s = true ∧ is_Some (peerConnection s))
  ∧ (answers_sent s ≠ [] → is_Some (peerConnection s)).
Proof.
  intros s.
  destruct (run_roles tr (initial id) (initial_one_role id))
    as (H1 & H2 & H3).
  fold s in H1, H2, H3. split_and!; [|done|..].
  - destruct H1 as [->|[-> _]]; simpl; lia.
  - intros Hne. destruct H1 as [?|(_ & ? & ?)]; done.
  - intros Hne. by destruct H2.
Qed.

Lemma page_takes_one_role_witness :
  let s := run [ StartClick (Return ["audio"]);
                 Offer {| offer := {| sd_type := sdp_offer; sdp := "X" |} |};
                 StartCall (Some {| initiator := "c1" |}) ] (initial "c1") in
  offers_sent s = [] ∧ is_Some (peerConnection s).
Proof.
  intros s.
  destruct (page_takes_one_role "c1"
              [ StartClick (Return ["audio"]);
                Offer {| offer := {| sd_type := sdp_offer; sdp := "X" |} |};
                StartCall (Some {| initiator := "c1" |}) ])
    as (_ & Hone & _ & Hans).
  fold s in Hone, Hans.
  assert (answers_sent s ≠ []) as Hne by (vm_compute; discriminate).
  split; [|by apply Hans]. by destruct Hone.
Defined.

(** X13. A page that no start-call has named as initiator sends no
    offer. *)
Theorem offer_only_when_named id tr :
  Forall (λ e, names id e = false) tr →
  offers_sent (run tr (initial id)) = [].
Proof.
  assert (∀ s, socket_id s = id → offers_sent s = [] →
               Forall (λ e, names id e = false) tr →
               offers_sent (run tr s) = []) as Hgen.
  { induction tr as [|e tr IH]; intros s Hid Hno Hall; [done|].
    apply Forall_cons in Hall as [He Hall].
    destruct (step_steady s e) as (K1 & _ & _ & _ & _ & _ & _ & K7).
    apply IH; [congruence | | done].
    rewrite K7; [done|]. by rewrite Hid. }
  by apply Hgen.
Qed.

Lemma offer_only_when_named_witness :
  offers_sent
    (run [ StartClick (Return ["audio"; "video"]);
           StartCall (Some {| initiator := "a1" |});
           Answer {| answer := {| sd_type := sdp_answer; sdp := "Y" |} |} ]
       (initial "b1")) = [].
Proof.
  apply (offer_only_when_named "b1"). repeat constructor.
Defined.

(** X14. No event takes back what the connection has: over any sequence
    of events the candidates already applied remain, in order, as the first
    of those applied afterwards, a remote description in place stays in
    place, and a peer connection that exists keeps existing. *)
Theorem connection_only_grows tr s :
  applied s `prefix_of` applied (run tr s)
  ∧ (remote_description_set s = true →
     remote_description_set (run tr s) = true)
  ∧ (is_Some (peerConnection s) → is_Some (peerConnection (run tr s))).
Proof.
  revert s. induction tr as [|e tr IH]; intros s; [done|].
  destruct (step_steady s e) as (_ & K2 & K3 & K4 & _).
  destruct (IH (step s e)) as (I2 & I3 & I4).
  split_and!; [by etrans|auto|auto].
Qed.

Lemma connection_only_grows_witness :
  let c := {| cand := "C1"; cand_type := "host"; acceptable := true |} in
  let s := run [ StartClick (Return ["audio"]);
                 Offer {| offer := {| sd_type := sdp_offer; sdp := "X" |} |};
                 IceCandidate {| candidate := c |} ] (initial "b1") in
  let tr := [ Offer {| offer := {| sd_type := sdp_answer; sdp := "Z" |} |};
              StartCall (Some {| initiator := "b1" |});
              Answer {| answer := {| sd_type := sdp_answer; sdp := "Y" |} |} ] in
  [c] `prefix_of` applied (run tr s)
  ∧ remote_description_set (run tr s) = true.
Proof.
  intros c s tr.
  destruct (connection_only_grows tr s) as (Hp & Hr & _).
  split; [exact Hp | exact (Hr eq_refl)].
Defined.

Lemma initiator_after_start_call (a : string) (ta : list string) :
  ∃ msgs,
    run [StartClick (Return ta); StartCall (Some {| initiator := a |})]
      (initial a)
    = {| socket_id := a; localStream := Some ta;
         peerConnection :=
           Some {| signalingState := have_local_offer;
                   localDescription := Some (offered ta);
                   remoteDescription := None; senders := ta;
                   dataChannels := ["chat"]; remoteCandidates := [] |};
         isInitiator := true; iceCandidateQueue := [];
         startBtn_disabled := true; mediaRequests := 0; messages := msgs;
         sent := [EmitReady; EmitOffer (offered ta)] |}.
Proof.
  unfold run, foldl, step, offered. exec.
  track_loop (λ kind, "📤 Added local " +:+ kind +:+ " track to peer connection") ta.
  exec. eexists. reflexivity.
Qed.

Lemma answerer_waits (a b : string) (tb : list string) :
  a ≠ b →
  ∃ msgs,
    run [StartClick (Return tb); StartCall (Some {| initiator := a |})]
      (initial b)
    = {| socket_id := b; localStream := Some tb; peerConnection := None;
         isInitiator := false; iceCandidateQueue := [];
         startBtn_disabled := true; mediaRequests := 0; messages := msgs;
         sent := [EmitReady] |}.
Proof.
  intros Hab. unfold run, foldl, step. exec. eexists. reflexivity.
Qed.

Lemma waiting_page_answers (b : string) (tb msgs : list string) (txt : string)
    (ini dis : bool) (req : nat) (out : list outgoing) :
  ∃ msgs',
    step {| socket_id := b; localStream := Some tb; peerConnection := None;
            isInitiator := ini; iceCandidateQueue := [];
            startBtn_disabled := dis; mediaRequests := req;
            messages := msgs; sent := out |}
      (Offer {| offer := {| sd_type := sdp_offer; sdp := txt |} |})
    = {| socket_id := b; localStream := Some tb;
         peerConnection :=
           Some {| signalingState := stable;
                   localDescription := Some (answered tb);
                   remoteDescription :=
                     Some {| sd_type := sdp_offer; sdp := txt |};
                   senders := tb;
                   dataChannels := []; remoteCandidates := [] |};
         isInitiator := false; iceCandidateQueue := [];
         startBtn_disabled := dis; mediaRequests := req; messages := msgs';
         sent := out ++ [EmitAnswer (answered tb)] |}.
Proof.
  unfold step, answered. exec.
  track_loop (λ kind, "📤 Added local " +:+ kind +:+ " track") tb.
  exec. eexists. reflexivity.
Qed.

Lemma answerer_after_offer (a b : string) (tb : list string) (o : Description) :
  a ≠ b →
  sd_type o = sdp_offer →
  ∃ msgs,
    run [StartClick (Return tb); StartCall (Some {| initiator := a |});
         Offer {| offer := o |}] (initial b)
    = {| socket_id := b; localStream := Some tb;
         peerConnection :=
           Some {| signalingState := stable;
                   localDescription := Some (answered tb);
                   remoteDescription := Some o; senders := tb;
                   dataChannels := []; remoteCandidates := [] |};
         isInitiator := false; iceCandidateQueue := [];
         startBtn_disabled := true; mediaRequests := 0; messages := msgs;
         sent := [EmitReady; EmitAnswer (answered tb)] |}.
Proof.
  intros Hab Ho. destruct o as [ty txt]. simpl in Ho. subst ty.
  destruct (answerer_waits a b tb Hab) as [m1 H1].
  change (run [StartClick (Return tb); StartCall (Some {| initiator := a |});
               Offer {| offer := {| sd_type := sdp_offer; sdp := txt |} |}]
            (initial b))
    with (step (run [StartClick (Return tb);
                     StartCall (Some {| initiator := a |})] (initial b))
            (Offer {| offer := {| sd_type := sdp_offer; sdp := txt |} |})).
  rewrite H1.
  destruct (waiting_page_answers b tb m1 txt false true 0 [EmitReady])
    as [m2 H2].
  rewrite H2. by exists m2.
Qed.

(** X15. The two pages complete the handshake: after the start-call that
    names [a], page [a] has sent ready and one offer and is in
    have-local-offer; page [b], given that offer, has sent ready and one
    answer and is stable; given that answer, page [a] becomes stable and
    sends nothing more. Each page's remote description is then the other's
    local description, each connection carries its page's own tracks, [a] is
    initiator and [b] is not. *)
Theorem handshake_completes (a b : string) (ta tb : list string) :
  a ≠ b →
  let called := StartCall (Some {| initiator := a |}) in
  let pa := run [StartClick (Return ta); called] (initial a) in
  let pb := run [StartClick (Return tb); called;
                 Offer {| offer := offered ta |}] (initial b) in
  let pa' := step pa (Answer {| answer := answered tb |}) in
  sent pa = [EmitReady; EmitOffer (offered ta)]
  ∧ sent pb = [EmitReady; EmitAnswer (answered tb)]
  ∧ sent pa' = sent pa
  ∧ (negotiation_state pa = Some have_local_offer
     ∧ negotiation_state pa' = Some stable
     ∧ negotiation_state pb = Some stable)
  ∧ (localDescription <$> peerConnection pa' = Some (Some (offered ta))
     ∧ remoteDescription <$> peerConnection pa' = Some (Some (answered tb)))
  ∧ (localDescription <$> peerConnection pb = Some (Some (answered tb))
     ∧ remoteDescription <$> peerConnection pb = Some (Some (offered ta)))
  ∧ (senders <$> peerConnection pa' = Some ta
     ∧ senders <$> peerConnection pb = Some tb)
  ∧ (isInitiator pa' = true ∧ isInitiator pb = false).
Proof.
  intros Hab called pa pb pa'.
  destruct (initiator_after_start_call a ta) as [ma Ha].
  destruct (answerer_after_offer a b tb (offered ta) Hab eq_refl) as [mb Hb].
  subst pa' pb pa called. rewrite Ha, Hb.
  unfold step, negotiation_state, answered. exec. done.
Qed.

Lemma handshake_completes_witness :
  let pa := run [ StartClick (Return ["audio"; "video"]);
                  StartCall (Some {| initiator := "a1" |}) ] (initial "a1") in
  negotiation_state (step pa (Answer {| answer := answered ["video"] |}))
  = Some stable
  ∧ sent pa = [ EmitReady;
                EmitOffer {| sd_type := sdp_offer; sdp := "m=audio;m=video;" |} ].
Proof.
  intros pa.
  destruct (handshake_completes "a1" "b1" ["audio"; "video"] ["video"]
              ltac:(done))
    as (Hsent & _ & _ & (_ & Hstable & _) & _).
  split; [exact Hstable | exact Hsent].
Defined.

End ClientMore.
